(** * react-basics: the state logic of the three demo screens

    A shallow embedding of the state handlers of
    - [src/pages/Counter.tsx]    (module [Counter]),
    - [src/pages/TodoList.tsx]   (module [TodoList]),
    - the user profile page      (module [UserProfile]),
    together with the few pieces of JavaScript they rely on (module [JS]):
    IEEE-754 numbers, strings of UTF-16 code units with [trim], and
    ordinary objects with their own-property enumeration order.

    A component's [useState] cells are the fields of a record; a handler is
    a function from the state its closure captured at the last render to
    the state after the updates it queued.  Objects that the code mutates
    in place live in an explicit heap, addressed by location, so that
    "the same object" and "an equal object" are different statements. *)

From Stdlib Require Import ZArith NArith Bool List String Ascii Lia.
From Stdlib Require Import SpecFloat.
From stdpp Require Import base option list gmap.

Local Open Scope Z_scope.

(* ===================================================================== *)
(** ** JavaScript values used by the pages                                *)
(* ===================================================================== *)

Module JS.

(** *** Numbers: IEEE-754 binary64

    A [spec_float] with precision 53 and maximal exponent 1024; the
    numbers of the language are its canonical values, which [of_scaled]
    and the arithmetic produce. *)

Definition number : Type := spec_float.

Definition prec : Z := 53.
Definition emax : Z := 1024.

(** The number denoted by [m * 2^e], rounded to nearest-even. *)
Definition of_scaled (m e : Z) : number := binary_normalize prec emax m e false.

(** Integer literals such as [0], [1], [5]. *)
Definition of_Z (z : Z) : number := of_scaled z 0.

Definition add (x y : number) : number := SFadd prec emax x y.
Definition sub (x y : number) : number := SFsub prec emax x y.

(** [x > y]; false as soon as one side is NaN. *)
Definition gt (x y : number) : bool := SFltb y x.
(** [x >= y]. *)
Definition ge (x y : number) : bool := SFleb y x.

(** *** Strings: sequences of UTF-16 code units *)

Definition jsstring : Type := list N.

(** A string literal of the source (ASCII only). *)
Definition str (s : string) : jsstring :=
  List.map N_of_ascii (list_ascii_of_string s).

(** WhiteSpace and LineTerminator code points of ECMAScript, the
    characters [String.prototype.trim] strips. *)
Definition is_white_space (c : N) : bool :=
  (  N.eqb c 0x0009 || N.eqb c 0x000A || N.eqb c 0x000B || N.eqb c 0x000C
  || N.eqb c 0x000D || N.eqb c 0x0020 || N.eqb c 0x00A0 || N.eqb c 0x1680
  || (N.leb 0x2000 c && N.leb c 0x200A)
  || N.eqb c 0x2028 || N.eqb c 0x2029 || N.eqb c 0x202F || N.eqb c 0x205F
  || N.eqb c 0x3000 || N.eqb c 0xFEFF)%bool%N.

Fixpoint trimStart (s : jsstring) : jsstring :=
  match s with
  | [] => []
  | c :: r => if is_white_space c then trimStart r else s
  end.

Definition trimEnd (s : jsstring) : jsstring := rev (trimStart (rev s)).

Definition trim (s : jsstring) : jsstring := trimEnd (trimStart s).

(** [s === ''] *)
Definition is_empty (s : jsstring) : bool :=
  match s with [] => true | _ => false end.

(** *** Completions: a handler returns normally or throws *)

Inductive exn : Type := TypeError.

Inductive completion (A : Type) : Type :=
| Normal (a : A)
| Throw (e : exn).
Arguments Normal {A} a.
Arguments Throw {A} e.

(** *** Ordinary objects with integer-valued property keys

    The own properties in creation order.  Assigning to an existing key
    keeps its position; assigning to a new key appends.  A key occurs at
    most once. *)
Section Object.
Context {V : Type}.

Definition object : Type := list (Z * V).

Fixpoint has_own (o : object) (k : Z) : bool :=
  match o with
  | [] => false
  | (k', _) :: r => if Z.eqb k' k then true else has_own r k
  end.

(** [o[k]] for an own property; [None] when [k] is not a key of [o]. *)
Fixpoint get_own (o : object) (k : Z) : option V :=
  match o with
  | [] => None
  | (k', v) :: r => if Z.eqb k' k then Some v else get_own r k
  end.

(** [o[k] = v] *)
Fixpoint set (o : object) (k : Z) (v : V) : object :=
  match o with
  | [] => [(k, v)]
  | (k', v') :: r => if Z.eqb k' k then (k', v) :: r else (k', v') :: set r k v
  end.

(** An array index is an integer key in [0, 2^32 - 2]; such keys are
    enumerated first, in ascending order, before all other keys, which
    come in creation order (OrdinaryOwnPropertyKeys). *)
Definition is_array_index (k : Z) : bool :=
  (Z.leb 0 k && Z.ltb k (2 ^ 32 - 1))%bool.

Fixpoint insert_by_key (p : Z * V) (l : object) : object :=
  match l with
  | [] => [p]
  | q :: r => if Z.leb (fst p) (fst q) then p :: q :: r else q :: insert_by_key p r
  end.

Fixpoint sort_by_key (l : object) : object :=
  match l with
  | [] => []
  | p :: r => insert_by_key p (sort_by_key r)
  end.

Definition own_properties (o : object) : object :=
  sort_by_key (List.filter (fun p => is_array_index (fst p)) o)
  ++ List.filter (fun p => negb (is_array_index (fst p))) o.

(** [Object.keys(o)] and [Object.values(o)] *)
Definition keys (o : object) : list Z := List.map fst (own_properties o).
Definition values (o : object) : list V := List.map snd (own_properties o).
End Object.
Arguments object V : clear implicits.

End JS.

(* ===================================================================== *)
(** ** src/pages/Counter.tsx                                              *)
(* ===================================================================== *)

Module Counter.
Import JS.

(** [const [count, setCount] = useState(0); const [step, setStep] = useState(5);] *)
Record State : Type := mkState { count : number; step : number }.

Definition mount : State := {| count := of_Z 0; step := of_Z 5 |}.

Definition setCount (v : number) (s : State) : State :=
  {| count := v; step := step s |}.
Definition setStep (v : number) (s : State) : State :=
  {| count := count s; step := v |}.

(** The handlers read [count] and [step] of the render that created
    them, here the state [s] they are applied to. *)
Definition increment (s : State) : State := setCount (add (count s) (step s)) s.
Definition decrement (s : State) : State := setCount (sub (count s) (step s)) s.

(** [reset(all: boolean = false)]: the argument may be left out. *)
Definition reset (all : option bool) (s : State) : State :=
  let all := default false all in
  let s := setCount (of_Z 0) s in
  if all then setStep (of_Z 1) s else s.

(** [handleStepChange(value)], called with [Number(e.target.value)]. *)
Definition handleStepChange (value : number) (s : State) : State :=
  setStep (if gt value (of_Z 0) then value else of_Z 1) s.

(** The user actions of the screen: its four buttons and the step input. *)
Inductive action : Type :=
| Increment
| Decrement
| Reset            (* onClick={() => reset()} *)
| ResetAll         (* onClick={() => reset(true)} *)
| StepChange (value : number).

Definition handle (a : action) (s : State) : State :=
  match a with
  | Increment => increment s
  | Decrement => decrement s
  | Reset => reset None s
  | ResetAll => reset (Some true) s
  | StepChange v => handleStepChange v s
  end.

Definition run (acts : list action) (s : State) : State :=
  fold_left (fun s a => handle a s) acts s.

(** The number 0.5, a value the step input accepts. *)
Definition one_half : number := of_scaled 1 (-1).

(** An entered value that is not strictly between 0 and 1. *)
Definition no_fraction_below_one (a : action) : bool :=
  match a with
  | StepChange v => implb (gt v (of_Z 0)) (ge v (of_Z 1))
  | _ => true
  end.

End Counter.

(* ===================================================================== *)
(** ** src/pages/TodoList.tsx                                             *)
(* ===================================================================== *)

Module TodoList.
Import JS.

(** [interface Todo { id: number; text: string; completed: boolean }]
    Ids are clock readings, whole numbers of milliseconds. *)
Record Todo : Type := mkTodo { id : Z; text : jsstring; completed : bool }.

(** [Todo | undefined], the value type of the index signature. *)
Inductive value : Type :=
| Undefined
| Object (t : Todo).

Definition loc : Type := positive.

(** The heap holds the objects created by [useState<TodoList>({})]; the
    cell [todoList] holds a reference into it.  The [Todo] records are
    only ever reached through the object that stores them, so they are
    kept by value inside it. *)
Record State : Type := mkState {
  heap : gmap loc (object value);
  todoList : loc;
  newTodo : jsstring
}.

(** First render: a fresh empty object, an empty input. *)
Definition mount : State :=
  {| heap := {[ 1%positive := [] ]}; todoList := 1%positive; newTodo := [] |}.

(** The object the cell refers to. *)
Definition deref (s : State) : object value := heap s !!! todoList s.

(** [setTodos(l)] and [setNewTodo(t)]: replace the content of a cell. *)
Definition setTodos (l : loc) (s : State) : State :=
  {| heap := heap s; todoList := l; newTodo := newTodo s |}.
Definition setNewTodo (t : jsstring) (s : State) : State :=
  {| heap := heap s; todoList := todoList s; newTodo := t |}.

(** [todoList[k] = v]: update, in the heap, the object the cell refers to. *)
Definition assign (k : Z) (v : value) (s : State) : State :=
  {| heap := alter (fun o => set o k v) (todoList s) (heap s);
     todoList := todoList s;
     newTodo := newTodo s |}.

(** [todoList[k]]: reading a key that is not there gives [undefined]. *)
Definition read (k : Z) (s : State) : value :=
  default Undefined (get_own (deref s) k).

(** [addTodo], with the reading [now] of [Date.now()].  Returns [newId]
    when a record was written, and the state after the handler.
    ([e.preventDefault()] only stops the page from reloading.) *)
Definition addTodo_run (now : Z) (s : State) : option Z * State :=
  if is_empty (trim (newTodo s)) then (None, s)
  else
    let newId := now in
    let s := assign newId
               (Object {| id := newId; text := trim (newTodo s); completed := false |}) s in
    let s := setTodos (todoList s) s in
    let s := setNewTodo [] s in
    (Some newId, s).

Definition addTodo (now : Z) (s : State) : State := snd (addTodo_run now s).

(** The record [t] after [t.completed = !t.completed]. *)
Definition toggled (t : Todo) : Todo :=
  {| id := id t; text := text t; completed := negb (completed t) |}.

(** [toggleTodo(id)]: [todoList[id]!] is dereferenced without a check,
    so an [undefined] there throws before anything is written. *)
Definition toggleTodo (k : Z) (s : State) : completion State :=
  match read k s with
  | Undefined => Throw TypeError
  | Object t =>
      let s := assign k (Object (toggled t)) s in
      Normal (setTodos (todoList s) s)
  end.

(** [deleteTodo(id)] *)
Definition deleteTodo (k : Z) (s : State) : State :=
  let s := assign k Undefined s in
  setTodos (todoList s) s.

(** [onChange={(e) => setNewTodo(e.target.value)}] *)
Definition onChange (t : jsstring) (s : State) : State := setNewTodo t s.

(** Typing [t] into the input and submitting the form at time [now]. *)
Definition create (now : Z) (t : jsstring) (s : State) : State :=
  addTodo now (onChange t s).

(** What the screen lists: [Object.values(todoList)]. *)
Definition listed (s : State) : list value := values (deref s).
Definition size (s : State) : nat := length (listed s).

(** One [<li>] of the list: its key, the checkbox and the label. *)
Record Item : Type := mkItem {
  key : Z; checked : bool; label : jsstring; line_through : bool
}.

(** [Object.values(todoList).map((todo) => <li key={todo.id} ...>)]:
    [todo.id] throws on an [undefined] entry. *)
Fixpoint render_items (vs : list value) : completion (list Item) :=
  match vs with
  | [] => Normal []
  | Undefined :: _ => Throw TypeError
  | Object t :: r =>
      match render_items r with
      | Normal items =>
          Normal ({| key := id t; checked := completed t; label := text t;
                     line_through := completed t |} :: items)
      | Throw e => Throw e
      end
  end.

Definition render_list (s : State) : completion (list Item) :=
  render_items (listed s).

(** [Object.values(todoList).length === 0 && <p>No todos yet. Add one!</p>] *)
Definition shows_no_todos_yet (s : State) : bool := Nat.eqb (size s) 0.

(** A run of creations: the ids handed out, in order, and the final state. *)
Fixpoint create_all (cs : list (Z * jsstring)) (s : State) : list Z * State :=
  match cs with
  | [] => ([], s)
  | (now, t) :: r =>
      let '(i, s1) := addTodo_run now (onChange t s) in
      let '(ids, s2) := create_all r s1 in
      (match i with Some k => k :: ids | None => ids end, s2)
  end.

(** The creations whose text is not blank, and their clock readings. *)
Definition effective (cs : list (Z * jsstring)) : list (Z * jsstring) :=
  List.filter (fun c => negb (is_empty (trim (snd c)))) cs.
Definition effective_clocks (cs : list (Z * jsstring)) : list Z :=
  List.map fst (effective cs).

(** The property a creation at time [now] with input text [t] writes. *)
Definition new_entry (c : Z * jsstring) : Z * value :=
  (fst c, Object {| id := fst c; text := trim (snd c); completed := false |}).

(** A clock reading of November 2023, and the store of the list screen
    after "Buy milk" was added at that time. *)
Definition a_clock : Z := 1700000000000.
Definition buy_milk : State := create a_clock (str "Buy milk") mount.

(** The row rendered for a record: [key={todo.id}], the checkbox
    [checked={todo.completed}], the label [{todo.text}], struck through
    when completed. *)
Definition item_of (t : Todo) : Item :=
  {| key := id t; checked := completed t; label := text t;
     line_through := completed t |}.

(** The user actions of the screen: typing into the input, submitting the
    form while the clock reads [now], clicking the checkbox or the Delete
    button of the row with id [k]. *)
Inductive action : Type :=
| Typing (t : jsstring)
| Submit (now : Z)
| Toggle (k : Z)
| Delete (k : Z).

(** A handler that throws has written nothing: the cells stay as they
    were. *)
Definition handle (a : action) (s : State) : State :=
  match a with
  | Typing t => onChange t s
  | Submit now => addTodo now s
  | Toggle k => match toggleTodo k s with Normal s' => s' | Throw _ => s end
  | Delete k => deleteTodo k s
  end.

Definition run (acts : list action) (s : State) : State :=
  fold_left (fun s a => handle a s) acts s.

(** A property is in good shape when its value is [undefined] or a record
    that carries the property's key as its id and a text that is not
    empty and has no white space at either end. *)
Definition entry_ok (p : Z * value) : Prop :=
  match snd p with
  | Undefined => True
  | Object t => id t = fst p /\ text t <> [] /\ trim (text t) = text t
  end.

(** The cell refers to the store object made at mount, the only store
    object there is; no key occurs twice and every property is in good
    shape.  (Records are kept by value, so the heap says nothing about
    the record objects a creation makes.) *)
Definition well_formed (s : State) : Prop :=
  exists o, heap s = {[ 1%positive := o ]}
            /\ todoList s = 1%positive
            /\ List.NoDup (List.map fst o)
            /\ List.Forall entry_ok o.

End TodoList.

(* ===================================================================== *)
(** ** The user profile page                                              *)
(* ===================================================================== *)

Module UserProfile.
Import JS.

Record Company : Type := mkCompany { cname : jsstring; catchPhrase : jsstring }.

Record User : Type := mkUser {
  uid : Z; name : jsstring; email : jsstring; phone : jsstring;
  website : jsstring; company : Company
}.

(** [user], [loading] and [error]: three independent cells. *)
Record State : Type := mkState {
  user : option User;          (* User | null *)
  loading : bool;
  error : option jsstring      (* string | null *)
}.

(** [useState(null)], [useState(true)], [useState(null)] *)
Definition mount : State := {| user := None; loading := true; error := None |}.

(** The setter calls of [fetchUser]. *)
Inductive update : Type :=
| SetUser (u : option User)
| SetLoading (b : bool)
| SetError (e : option jsstring).

Definition apply (u : update) (s : State) : State :=
  match u with
  | SetUser v => {| user := v; loading := loading s; error := error s |}
  | SetLoading b => {| user := user s; loading := b; error := error s |}
  | SetError e => {| user := user s; loading := loading s; error := e |}
  end.

Definition apply_all (us : list update) (s : State) : State :=
  fold_left (fun s u => apply u s) us s.

(** How the request of [axios.get] settles: with a body of the page's
    [User] interface, or with a failure. *)
Inductive response : Type :=
| Fulfilled (data : User)
| Rejected.

(** [fetchUser] up to the [await] ... *)
Definition before_await : list update := [SetLoading true].

(** ... and after it: the rest of [try], or [catch], then [finally]. *)
Definition after_await (r : response) : list update :=
  match r with
  | Fulfilled data => [SetUser (Some data); SetError None; SetLoading false]
  | Rejected => [SetError (Some (str "Failed to fetch user data")); SetLoading false]
  end.

(** The completion handlers on their own, as the promise runs them. *)
Definition resolve (data : User) (s : State) : State :=
  apply_all (after_await (Fulfilled data)) s.
Definition reject (s : State) : State :=
  apply_all (after_await Rejected) s.

Definition fetchUser (r : response) : list update := before_await ++ after_await r.

(** A configuration: the cells, and the setter calls still to run.  The
    effect runs [fetchUser] once per mount ([useEffect(..., [])]), and
    [reachable] below follows that one run: a mount whose effect were run
    a second time, with two requests in flight, is outside it. *)
Definition config : Type := State * list update.

Definition start (r : response) : config := (mount, fetchUser r).

Inductive step : config -> config -> Prop :=
| step_update s u rest : step (s, u :: rest) (apply u s, rest).

Inductive reachable : config -> Prop :=
| reach_start r : reachable (start r)
| reach_step c c' : reachable c -> step c c' -> reachable c'.

(** The configurations a run goes through, in order. *)
Fixpoint configs_from (s : State) (us : list update) : list config :=
  (s, us) :: match us with
             | [] => []
             | u :: rest => configs_from (apply u s) rest
             end.

(** The fetch has settled when no setter call is left. *)
Definition settled (c : config) : Prop := snd c = [].

(** Which of its views the component returns: the spinner when [loading],
    else the message when [error] is truthy, else the profile, whose
    body is there only when [user] is. *)
Inductive status : Type := Idle | Loading | Success | Error.

Definition truthy (e : option jsstring) : bool :=
  match e with
  | Some (_ :: _) => true
  | _ => false
  end.

Definition status_of (s : State) : status :=
  if loading s then Loading
  else if truthy (error s) then Error
  else match user s with
       | Some _ => Success
       | None => Idle
       end.

Definition populated {A : Type} (x : option A) : bool :=
  match x with Some _ => true | None => false end.

(** Two records of the data source. *)
Definition leanne : User :=
  {| uid := 1; name := str "Leanne Graham"; email := str "Sincere@april.biz";
     phone := str "1-770-736-8031 x56442"; website := str "hildegard.org";
     company := {| cname := str "Romaguera-Crona";
                   catchPhrase := str "Multi-layered client-server neural-net" |} |}.
Definition ervin : User :=
  {| uid := 2; name := str "Ervin Howell"; email := str "Shanna@melissa.tv";
     phone := str "010-692-6593 x09125"; website := str "anastasia.net";
     company := {| cname := str "Deckow-Crist";
                   catchPhrase := str "Proactive didactic contingency" |} |}.

(** What the component returns: the spinner, the error message with its
    Try Again button, or the profile page, whose body is there only when
    [user] is. *)
Inductive view : Type :=
| Spinner
| ErrorView (message : jsstring)
| ProfileView (body : option User).

Definition render (s : State) : view :=
  if loading s then Spinner
  else match error s with
       | Some (c :: m) => ErrorView (c :: m)
       | _ => ProfileView (user s)
       end.

End UserProfile.

(* ===================================================================== *)
(** ** Facts about the counter screen                                     *)
(* ===================================================================== *)

Module CounterFacts.
Import JS Counter.

Lemma step_setCount v s : step (setCount v s) = step s.
Proof. reflexivity. Qed.

Lemma step_increment s : step (increment s) = step s.
Proof. reflexivity. Qed.

Lemma step_decrement s : step (decrement s) = step s.
Proof. reflexivity. Qed.

Lemma step_handleStepChange v s :
  step (handleStepChange v s) = if gt v (of_Z 0) then v else of_Z 1.
Proof. reflexivity. Qed.

Lemma run_snoc acts a s : run (acts ++ [a]) s = handle a (run acts s).
Proof. unfold run. now rewrite fold_left_app. Qed.

(** Every handler keeps [step] above zero. *)
Lemma handle_keeps_positive a s :
  gt (step s) (of_Z 0) = true -> gt (step (handle a s)) (of_Z 0) = true.
Proof.
  intros Hs. destruct a as [ | | | | v]; cbn [handle]; try exact Hs; try reflexivity.
  rewrite step_handleStepChange.
  destruct (gt v (of_Z 0)) eqn:Hv; [exact Hv | reflexivity].
Qed.

(** Every handler keeps [step] at or above one when the entered value is
    not a fraction below one. *)
Lemma handle_keeps_at_least_one a s :
  no_fraction_below_one a = true ->
  ge (step s) (of_Z 1) = true -> ge (step (handle a s)) (of_Z 1) = true.
Proof.
  intros Ha Hs. destruct a as [ | | | | v]; cbn [handle]; try exact Hs; try reflexivity.
  rewrite step_handleStepChange. cbn [no_fraction_below_one] in Ha.
  destruct (gt v (of_Z 0)); [exact Ha | reflexivity].
Qed.

Lemma run_keeps_positive acts :
  gt (step (run acts mount)) (of_Z 0) = true.
Proof.
  induction acts as [ | a acts IH] using rev_ind.
  - reflexivity.
  - rewrite run_snoc. now apply handle_keeps_positive.
Qed.

Lemma run_keeps_at_least_one acts :
  forallb no_fraction_below_one acts = true ->
  ge (step (run acts mount)) (of_Z 1) = true.
Proof.
  induction acts as [ | a acts IH] using rev_ind; intros Hall.
  - reflexivity.
  - rewrite forallb_app in Hall. apply andb_prop in Hall as [Hacts Ha].
    simpl in Ha. rewrite andb_true_r in Ha.
    rewrite run_snoc. apply handle_keeps_at_least_one; auto.
Qed.

(** C9, as stated, fails: entering 0.5 in the step input stores 0.5,
    which is positive and below 1. *)
Lemma step_below_one_reachable :
  let s := run [StepChange one_half] mount in
  step s = one_half /\ gt (step s) (of_Z 0) = true /\ ge (step s) (of_Z 1) = false.
Proof. repeat split. Qed.

(** C9 (amended): in every reachable state of the counter screen the
    step is greater than 0, and it is at least 1 when no value entered
    in the step input lies strictly between 0 and 1.  The initial step
    is 5; [handleStepChange v] stores [v] when [v > 0] and 1 otherwise
    (also for NaN); [reset(true)] stores 1; increment, decrement and the
    plain reset do not write [step]. *)
Theorem step_stays_positive :
  step mount = of_Z 5
  /\ (forall v s, step (handleStepChange v s) = if gt v (of_Z 0) then v else of_Z 1)
  /\ (forall s, step (reset (Some true) s) = of_Z 1)
  /\ (forall s, step (increment s) = step s /\ step (decrement s) = step s
                /\ step (reset None s) = step s /\ step (reset (Some false) s) = step s)
  /\ (forall acts, gt (step (run acts mount)) (of_Z 0) = true)
  /\ (forall acts, forallb no_fraction_below_one acts = true ->
                   ge (step (run acts mount)) (of_Z 1) = true).
Proof.
  split; [reflexivity | ].
  split; [exact step_handleStepChange | ].
  split; [reflexivity | ].
  split; [intros s; repeat split | ].
  split; [exact run_keeps_positive | exact run_keeps_at_least_one].
Qed.

Lemma step_stays_positive_witness :
  forallb no_fraction_below_one [StepChange (of_Z 3); Increment; Reset] = true
  /\ ge (step (run [StepChange (of_Z 3); Increment; Reset] mount)) (of_Z 1) = true.
Proof.
  split; [reflexivity | ].
  apply (proj2 (proj2 (proj2 (proj2 (proj2 step_stays_positive))))
           [StepChange (of_Z 3); Increment; Reset]).
  reflexivity.
Defined.

(** C10: for every counter state, the plain reset ([reset()], or
    [reset(false)]) sets [count] to 0 and leaves [step] as it was; only
    [reset(true)] also writes [step], and it writes 1, which is not the
    initial step 5. *)
Theorem reset_leaves_step (s : State) :
  reset None s = {| count := of_Z 0; step := step s |}
  /\ reset (Some false) s = {| count := of_Z 0; step := step s |}
  /\ reset (Some true) s = {| count := of_Z 0; step := of_Z 1 |}
  /\ step mount = of_Z 5
  /\ of_Z 1 <> of_Z 5.
Proof. repeat split. discriminate. Qed.

End CounterFacts.

(* ===================================================================== *)
(** ** Facts about objects                                                *)
(* ===================================================================== *)

Module ObjectFacts.
Import JS.

Section Facts.
Context {V : Type}.
Implicit Types (o l : object V) (k : Z) (v : V) (p : Z * V).

Lemma set_fresh o k v : has_own o k = false -> set o k v = o ++ [(k, v)].
Proof.
  induction o as [ | [k' v'] o IH]; simpl; [reflexivity | ].
  destruct (Z.eqb k' k); [discriminate | ].
  intros H. now rewrite IH.
Qed.

Lemma set_set_restore o k v v' :
  get_own o k = Some v -> set (set o k v') k v = o.
Proof.
  induction o as [ | [k' w] o IH]; simpl; [discriminate | ].
  destruct (Z.eqb k' k) eqn:E; simpl; rewrite E.
  - now intros [= ->].
  - intros H. now rewrite IH.
Qed.

Lemma get_own_set_eq o k v : get_own (set o k v) k = Some v.
Proof.
  induction o as [ | [k' w] o IH]; simpl.
  - now rewrite Z.eqb_refl.
  - destruct (Z.eqb k' k) eqn:E; simpl; now rewrite E.
Qed.

Lemma has_own_set_eq o k v : has_own (set o k v) k = true.
Proof.
  induction o as [ | [k' w] o IH]; simpl.
  - now rewrite Z.eqb_refl.
  - destruct (Z.eqb k' k) eqn:E; simpl; now rewrite E.
Qed.

Lemma has_own_snoc o k v k' :
  has_own (o ++ [(k, v)]) k' = (has_own o k' || Z.eqb k k')%bool.
Proof.
  induction o as [ | [k0 w] o IH]; simpl.
  - now destruct (Z.eqb k k').
  - now destruct (Z.eqb k0 k').
Qed.

Lemma length_insert_by_key p l : length (insert_by_key p l) = S (length l).
Proof.
  induction l as [ | q l IH]; simpl; [reflexivity | ].
  destruct (Z.leb (fst p) (fst q)); simpl; [reflexivity | now rewrite IH].
Qed.

Lemma length_sort_by_key l : length (sort_by_key l) = length l.
Proof.
  induction l as [ | p l IH]; simpl; [reflexivity | ].
  now rewrite length_insert_by_key, IH.
Qed.

Lemma length_own_properties o : length (own_properties o) = length o.
Proof.
  unfold own_properties. rewrite List.length_app, length_sort_by_key.
  induction o as [ | p o IH]; simpl; [reflexivity | ].
  destruct (is_array_index (fst p)); simpl; lia.
Qed.

Lemma length_values o : length (values o) = length o.
Proof. unfold values. now rewrite List.length_map, length_own_properties. Qed.

Lemma In_insert_by_key q p l : In q (insert_by_key p l) <-> q = p \/ In q l.
Proof.
  induction l as [ | r l IH]; simpl; [intuition | ].
  destruct (Z.leb (fst p) (fst r)); simpl; [intuition | ].
  rewrite IH. intuition.
Qed.

Lemma In_sort_by_key q l : In q (sort_by_key l) <-> In q l.
Proof.
  induction l as [ | p l IH]; simpl; [reflexivity | ].
  rewrite In_insert_by_key, IH. intuition.
Qed.

Lemma In_own_properties q o : In q (own_properties o) <-> In q o.
Proof.
  unfold own_properties.
  rewrite List.in_app_iff, In_sort_by_key, !List.filter_In.
  destruct (is_array_index (fst q)); simpl; intuition discriminate.
Qed.

Lemma In_set o k v : In (k, v) (set o k v).
Proof.
  induction o as [ | [k' w] o IH]; simpl; [now left | ].
  destruct (Z.eqb k' k) eqn:E.
  - apply Z.eqb_eq in E as ->. now left.
  - now right.
Qed.

Lemma In_values_set o k v : In v (values (set o k v)).
Proof.
  unfold values. apply (List.in_map snd _ (k, v)).
  apply In_own_properties, In_set.
Qed.

Lemma In_values_snoc o k v : In v (values (o ++ [(k, v)])).
Proof.
  unfold values. apply (List.in_map snd _ (k, v)).
  apply In_own_properties, List.in_or_app. right. now left.
Qed.

(** A key that is not an array index is enumerated where it was created. *)
Lemma own_properties_snoc o k v :
  is_array_index k = false ->
  own_properties (o ++ [(k, v)]) = own_properties o ++ [(k, v)].
Proof.
  intros Hk. unfold own_properties.
  rewrite !List.filter_app. simpl. rewrite Hk. simpl.
  now rewrite List.app_nil_r, List.app_assoc.
Qed.

Lemma values_snoc o k v :
  is_array_index k = false -> values (o ++ [(k, v)]) = values o ++ [v].
Proof.
  intros Hk. unfold values.
  now rewrite own_properties_snoc, List.map_app.
Qed.
End Facts.

End ObjectFacts.

(* ===================================================================== *)
(** ** Facts about the todo list screen                                   *)
(* ===================================================================== *)

Module TodoListFacts.
Import JS TodoList ObjectFacts.

Lemma deref_Some s o : heap s !! todoList s = Some o -> deref s = o.
Proof. unfold deref. intros H. now apply lookup_total_correct. Qed.

Lemma heap_assign k v s o :
  heap s !! todoList s = Some o ->
  heap (assign k v s) !! todoList s = Some (set o k v).
Proof. intros H. simpl. now rewrite lookup_alter_eq, H. Qed.

Lemma read_Object k s t :
  read k s = Object t ->
  exists o, heap s !! todoList s = Some o /\ get_own o k = Some (Object t).
Proof.
  unfold read, deref. rewrite lookup_total_alt.
  destruct (heap s !! todoList s) as [o | ] eqn:Ho; simpl.
  - destruct (get_own o k) as [v | ] eqn:Hk; simpl; [ | discriminate].
    intros ->. now exists o.
  - discriminate.
Qed.

Lemma read_assign_eq k v s o :
  heap s !! todoList s = Some o -> read k (assign k v s) = v.
Proof.
  intros H. unfold read.
  rewrite (deref_Some (assign k v s) (set o k v) (heap_assign k v s o H)).
  now rewrite get_own_set_eq.
Qed.

(** Publishing the reference the cell already holds changes no read. *)
Lemma read_setTodos_same k s : read k (setTodos (todoList s) s) = read k s.
Proof. reflexivity. Qed.

Lemma toggled_toggled t : toggled (toggled t) = t.
Proof. destruct t as [i x c]. unfold toggled. simpl. now rewrite negb_involutive. Qed.

Lemma toggleTodo_present k s t :
  read k s = Object t ->
  toggleTodo k s
  = Normal (setTodos (todoList s) (assign k (Object (toggled t)) s)).
Proof. unfold toggleTodo. now intros ->. Qed.

(** C8: for every store and every id [k] bound in it to a record,
    toggling [k] twice gives back a store with the same content: the
    record's [completed] is restored and nothing else has changed. *)
Theorem toggle_involution (s : State) (k : Z) (t : Todo) :
  read k s = Object t ->
  exists s1, toggleTodo k s = Normal s1 /\ toggleTodo k s1 = Normal s.
Proof.
  intros Hread.
  destruct (read_Object k s t Hread) as (o & Ho & Hk).
  eexists. split; [exact (toggleTodo_present k s t Hread) | ].
  rewrite (toggleTodo_present k _ (toggled t)).
  - rewrite toggled_toggled. f_equal.
    destruct s as [h l n]. unfold setTodos, assign. simpl in *.
    f_equal. rewrite alter_alter_eq. apply alter_id.
    intros x Hx. rewrite Ho in Hx. injection Hx as <-. simpl.
    now apply set_set_restore.
  - change (read k (assign k (Object (toggled t)) s) = Object (toggled t)).
    now apply (read_assign_eq k _ s o).
Qed.

Lemma toggle_involution_witness :
  read a_clock buy_milk
    = Object {| id := a_clock; text := str "Buy milk"; completed := false |}
  /\ exists s1, toggleTodo a_clock buy_milk = Normal s1
                /\ toggleTodo a_clock s1 = Normal buy_milk.
Proof.
  split; [reflexivity | ].
  apply (toggle_involution buy_milk a_clock
           {| id := a_clock; text := str "Buy milk"; completed := false |}).
  reflexivity.
Defined.

(** *** Creation *)

Lemma create_blank now t s :
  is_empty (trim t) = true -> create now t s = onChange t s.
Proof.
  intros H. unfold create, addTodo, addTodo_run.
  change (newTodo (onChange t s)) with t. now rewrite H.
Qed.

Lemma addTodo_run_nonblank now s :
  is_empty (trim (newTodo s)) = false ->
  addTodo_run now s
  = (Some now,
     setNewTodo [] (setTodos (todoList s)
                      (assign now (snd (new_entry (now, newTodo s))) s))).
Proof. intros H. unfold addTodo_run. now rewrite H. Qed.

Lemma addTodo_run_blank now s :
  is_empty (trim (newTodo s)) = true -> addTodo_run now s = (None, s).
Proof. intros H. unfold addTodo_run. now rewrite H. Qed.

Lemma heap_create_fresh now t s o :
  heap s !! todoList s = Some o ->
  is_empty (trim t) = false ->
  has_own o now = false ->
  heap (create now t s) !! todoList (create now t s)
  = Some (o ++ [new_entry (now, t)]).
Proof.
  intros Ho Ht Hfresh. unfold create, addTodo.
  rewrite addTodo_run_nonblank by exact Ht.
  change (heap (assign now (snd (new_entry (now, t))) (onChange t s))
            !! todoList (onChange t s) = Some (o ++ [new_entry (now, t)])).
  rewrite (heap_assign _ _ (onChange t s) o Ho).
  now rewrite set_fresh.
Qed.

Lemma size_deref s o : heap s !! todoList s = Some o -> size s = length o.
Proof.
  intros Ho. unfold size, listed. rewrite (deref_Some s o Ho).
  apply length_values.
Qed.

(** C7, as stated, fails: a second creation in the same millisecond
    overwrites the first record, and the size stays 1. *)
Lemma create_same_tick_keeps_size :
  is_empty (trim (str "Feed cat")) = false
  /\ size buy_milk = 1%nat
  /\ size (create a_clock (str "Feed cat") buy_milk) = 1%nat
  /\ size (create a_clock (str "Feed cat") buy_milk) <> S (size buy_milk)
  /\ listed (create a_clock (str "Feed cat") buy_milk)
     = [Object {| id := a_clock; text := str "Feed cat"; completed := false |}].
Proof. repeat split. discriminate. Qed.

(** C7 (amended): for every store, clock reading [now] and text [t]:
    if [t] trimmed is empty, creating changes nothing but the input
    text, and no error is raised; otherwise, when [now] is not yet a key
    of the store, the store gains the property
    [now -> {id: now, text: t trimmed, completed: false}] after all its
    other properties, its size grows by one, the new record is listed,
    and it is listed last when [now] is not an array index (any clock
    reading from 2^32 - 1 on).  On the empty store, creating "Buy milk"
    lists exactly one record with that text and [completed = false]. *)
Theorem create_appends_record (now : Z) (t : jsstring) (s : State) (o : object value) :
  heap s !! todoList s = Some o ->
  (is_empty (trim t) = true -> create now t s = onChange t s)
  /\ (is_empty (trim t) = false -> has_own o now = false ->
      let r := Object {| id := now; text := trim t; completed := false |} in
      heap (create now t s) !! todoList (create now t s) = Some (o ++ [(now, r)])
      /\ newTodo (create now t s) = []
      /\ size (create now t s) = S (size s)
      /\ In r (listed (create now t s))
      /\ (is_array_index now = false -> listed (create now t s) = listed s ++ [r]))
  /\ listed (create now (str "Buy milk") mount)
     = [Object {| id := now; text := str "Buy milk"; completed := false |}].
Proof.
  intros Ho. split; [apply create_blank | ]. split.
  - intros Ht Hfresh r.
    pose proof (heap_create_fresh now t s o Ho Ht Hfresh) as Hc.
    change (new_entry (now, t)) with (now, r) in Hc.
    split; [exact Hc | ]. split.
    { unfold create, addTodo. now rewrite addTodo_run_nonblank by exact Ht. }
    split.
    { rewrite (size_deref _ _ Hc), (size_deref _ _ Ho), List.length_app.
      simpl. lia. }
    unfold listed. rewrite (deref_Some _ _ Hc), (deref_Some _ _ Ho).
    split; [apply In_values_snoc | apply values_snoc].
  - unfold listed, values, own_properties.
    change (deref (create now (str "Buy milk") mount))
      with [(now, Object {| id := now; text := str "Buy milk"; completed := false |})].
    simpl. now destruct (is_array_index now).
Qed.

Lemma create_appends_record_witness :
  heap mount !! todoList mount = Some []
  /\ is_empty (trim (str "Buy milk")) = false
  /\ has_own (V := value) [] a_clock = false
  /\ is_array_index a_clock = false
  /\ size (create a_clock (str "Buy milk") mount) = 1%nat
  /\ listed (create a_clock (str "Buy milk") mount)
     = listed mount
       ++ [Object {| id := a_clock; text := trim (str "Buy milk"); completed := false |}].
Proof.
  do 4 (split; [reflexivity | ]).
  destruct (create_appends_record a_clock (str "Buy milk") mount [] eq_refl)
    as (_ & Hnew & _).
  destruct (Hnew eq_refl eq_refl) as (_ & _ & Hsize & _ & Hlast).
  split; [exact Hsize | exact (Hlast eq_refl)].
Defined.

(** *** Identifiers *)

Lemma effective_cons_blank now t cs :
  is_empty (trim t) = true -> effective ((now, t) :: cs) = effective cs.
Proof. intros H. unfold effective. simpl. now rewrite H. Qed.

Lemma effective_cons_nonblank now t cs :
  is_empty (trim t) = false ->
  effective ((now, t) :: cs) = (now, t) :: effective cs.
Proof. intros H. unfold effective. simpl. now rewrite H. Qed.

(** The ids handed out are the clock readings, whatever the store. *)
Lemma create_all_ids cs : forall s, fst (create_all cs s) = effective_clocks cs.
Proof.
  induction cs as [ | [now t] cs IH]; intros s; [reflexivity | ].
  unfold effective_clocks in *. simpl create_all.
  destruct (is_empty (trim t)) eqn:Ht.
  - rewrite addTodo_run_blank by exact Ht.
    rewrite effective_cons_blank by exact Ht.
    specialize (IH (onChange t s)).
    destruct (create_all cs (onChange t s)) as [ids s2]. exact IH.
  - rewrite addTodo_run_nonblank by exact Ht.
    rewrite effective_cons_nonblank by exact Ht.
    match goal with |- context [create_all cs ?s1] =>
      specialize (IH s1); destruct (create_all cs s1) as [ids s2] end.
    simpl in *. now rewrite IH.
Qed.

(** With pairwise distinct clock readings, none of them a key already,
    every creation adds its own property. *)
Lemma create_all_store cs : forall s o,
  heap s !! todoList s = Some o ->
  (forall k, In k (effective_clocks cs) -> has_own o k = false) ->
  List.NoDup (effective_clocks cs) ->
  let s' := snd (create_all cs s) in
  heap s' !! todoList s' = Some (o ++ List.map new_entry (effective cs)).
Proof.
  induction cs as [ | [now t] cs IH]; intros s o Ho Hfresh Hnodup.
  - simpl. now rewrite List.app_nil_r.
  - unfold effective_clocks in *. simpl create_all.
    destruct (is_empty (trim t)) eqn:Ht.
    + rewrite addTodo_run_blank by exact Ht.
      rewrite effective_cons_blank in * by exact Ht.
      specialize (IH (onChange t s) o Ho Hfresh Hnodup).
      destruct (create_all cs (onChange t s)) as [ids s2]. exact IH.
    + rewrite addTodo_run_nonblank by exact Ht.
      rewrite effective_cons_nonblank in * by exact Ht.
      simpl in Hfresh, Hnodup. apply List.NoDup_cons_iff in Hnodup as [Hnotin Hnodup].
      assert (Hs1 : heap (assign now (snd (new_entry (now, t))) (onChange t s))
                      !! todoList (onChange t s) = Some (o ++ [new_entry (now, t)])).
      { rewrite (heap_assign _ _ (onChange t s) o Ho).
        rewrite set_fresh; [reflexivity | ]. apply Hfresh. now left. }
      assert (Hfresh' : forall k, In k (List.map fst (effective cs)) ->
                                  has_own (o ++ [new_entry (now, t)]) k = false).
      { intros k Hk. unfold new_entry. simpl fst. rewrite has_own_snoc.
        rewrite (Hfresh k (or_intror Hk)). simpl.
        apply Z.eqb_neq. intros ->. contradiction. }
      match goal with |- context [create_all cs ?s1] =>
        specialize (IH s1 (o ++ [new_entry (now, t)]) Hs1 Hfresh' Hnodup);
        destruct (create_all cs s1) as [ids s2] end.
      rewrite <- List.app_assoc in IH. exact IH.
Qed.

(** C3, as stated, fails: two creations within one millisecond are
    given the same id, and only one record is left. *)
Lemma same_tick_same_id :
  let run := create_all [(a_clock, str "Buy milk"); (a_clock, str "Feed cat")] mount in
  fst run = [a_clock; a_clock]
  /\ ~ List.NoDup (fst run)
  /\ size (snd run) = 1%nat.
Proof.
  repeat split. intros H. apply List.NoDup_cons_iff in H as [H _].
  apply H. now left.
Qed.

(** C3 (amended): the id a creation assigns is the millisecond clock
    reading taken by that creation.  So for every sequence of creations
    the ids assigned are the clock readings of the creations with
    non-blank text; when these readings are pairwise distinct, so are
    the ids, and a store that started empty holds one record per such
    creation, in order. *)
Theorem ids_are_clock_readings (cs : list (Z * jsstring)) :
  fst (create_all cs mount) = effective_clocks cs
  /\ (List.NoDup (effective_clocks cs) ->
      List.NoDup (fst (create_all cs mount))
      /\ deref (snd (create_all cs mount)) = List.map new_entry (effective cs)).
Proof.
  split; [apply create_all_ids | ]. intros Hnodup. split.
  - now rewrite create_all_ids.
  - apply deref_Some.
    apply (create_all_store cs mount [] eq_refl); [reflexivity | exact Hnodup].
Qed.

Lemma ids_are_clock_readings_witness :
  List.NoDup (effective_clocks [(a_clock, str "Buy milk"); (a_clock + 1, str "Feed cat")])
  /\ List.NoDup (fst (create_all [(a_clock, str "Buy milk"); (a_clock + 1, str "Feed cat")] mount)).
Proof.
  assert (H : List.NoDup
                (effective_clocks [(a_clock, str "Buy milk"); (a_clock + 1, str "Feed cat")])).
  { repeat constructor; simpl; intuition discriminate. }
  split; [exact H | ].
  exact (proj1 (proj2 (ids_are_clock_readings
                         [(a_clock, str "Buy milk"); (a_clock + 1, str "Feed cat")]) H)).
Defined.

(** *** Identity of the published store, deletion, absent ids *)

(** C1 (the code at the failing input): every handler publishes the
    reference the cell already holds, and the object behind that
    reference has changed.  Adding "Buy milk" to the empty store leaves
    the cell pointing to the same object, which was empty and now holds
    the record; toggling and deleting likewise rewrite that object. *)
Theorem handlers_republish_same_object :
  (forall now s, todoList (addTodo now s) = todoList s)
  /\ (forall k s, todoList (deleteTodo k s) = todoList s)
  /\ (forall k s, match toggleTodo k s with
                  | Normal s' => todoList s' = todoList s
                  | Throw _ => True
                  end)
  /\ (let s0 := onChange (str "Buy milk") mount in
      let s1 := addTodo a_clock s0 in
      todoList s1 = todoList s0
      /\ heap s0 !! todoList s0 = Some []
      /\ heap s1 !! todoList s0 = Some [new_entry (a_clock, str "Buy milk")])
  /\ heap (deleteTodo a_clock buy_milk) !! todoList buy_milk
     = Some [(a_clock, Undefined)]
  /\ match toggleTodo a_clock buy_milk with
     | Normal s1 => heap s1 !! todoList buy_milk
     | Throw _ => None
     end
     = Some [(a_clock, Object {| id := a_clock; text := str "Buy milk";
                                 completed := true |})].
Proof.
  split.
  { intros now s. unfold addTodo, addTodo_run.
    now destruct (is_empty (trim (newTodo s))). }
  split; [reflexivity | ]. split.
  { intros k s. unfold toggleTodo. now destruct (read k s). }
  split; [repeat split | ]. split; reflexivity.
Qed.

(** C2 (the code at the failing input): deleting the only record keeps
    its key, now bound to [undefined]; the listing still has one entry,
    the [undefined] one, on which rendering throws, and the "No todos
    yet" line is not shown.  Deleting an id that was never there also
    adds such an entry.  On every object, the assignment deletion makes
    leaves the key in place and an [undefined] among the values. *)
Theorem delete_leaves_undefined_entry :
  let s := deleteTodo a_clock buy_milk in
  listed buy_milk = [Object {| id := a_clock; text := str "Buy milk"; completed := false |}]
  /\ has_own (deref s) a_clock = true
  /\ listed s = [Undefined]
  /\ size s = 1%nat
  /\ shows_no_todos_yet s = false
  /\ render_list s = Throw TypeError
  /\ listed (deleteTodo 7 mount) = [Undefined].
Proof. repeat split. Qed.

(** C4 (the code at the failing input): toggling an id that is not in
    the store throws a TypeError: on the empty store for every id, and,
    on every store, for an id that has just been deleted; after deleting
    the only record the size is still 1. *)
Theorem toggle_absent_throws :
  (forall k, toggleTodo k mount = Throw TypeError)
  /\ toggleTodo a_clock (deleteTodo a_clock buy_milk) = Throw TypeError
  /\ size (deleteTodo a_clock buy_milk) = 1%nat
  /\ (forall k s, toggleTodo k (deleteTodo k s) = Throw TypeError).
Proof.
  do 3 (split; [reflexivity | ]).
  intros k s. unfold toggleTodo.
  replace (read k (deleteTodo k s)) with Undefined; [reflexivity | ].
  change (read k (deleteTodo k s)) with (read k (assign k Undefined s)).
  unfold read, deref. rewrite lookup_total_alt. simpl.
  rewrite lookup_alter_eq. destruct (heap s !! todoList s) as [o | ]; simpl.
  - now rewrite get_own_set_eq.
  - reflexivity.
Qed.

End TodoListFacts.

(* ===================================================================== *)
(** ** Facts about the user profile page                                  *)
(* ===================================================================== *)

Module UserProfileFacts.
Import JS UserProfile.

Lemma configs_from_head s us : In (s, us) (configs_from s us).
Proof. destruct us; now left. Qed.

Lemma configs_from_step s0 us0 s u rest :
  In (s, u :: rest) (configs_from s0 us0) ->
  In (apply u s, rest) (configs_from s0 us0).
Proof.
  revert s0. induction us0 as [ | u0 us0 IH]; intros s0 Hin.
  - destruct Hin as [[= _ ?] | []].
  - destruct Hin as [[= -> -> ->] | Hin].
    + right. apply configs_from_head.
    + right. now apply IH.
Qed.

Lemma reachable_in_run c :
  reachable c -> exists r, In c (configs_from mount (fetchUser r)).
Proof.
  induction 1 as [r | c c' _ [r IH] Hstep].
  - exists r. apply configs_from_head.
  - exists r. destruct Hstep as [s u rest]. now apply configs_from_step.
Qed.

Lemma configs_reachable_from s us :
  reachable (s, us) -> forall c, In c (configs_from s us) -> reachable c.
Proof.
  revert s. induction us as [ | u rest IH]; intros s Hs c Hin.
  - destruct Hin as [<- | []]. exact Hs.
  - destruct Hin as [<- | Hin]; [exact Hs | ].
    apply (IH (apply u s)); [ | exact Hin].
    apply (reach_step (s, u :: rest)); [exact Hs | apply step_update].
Qed.

Lemma configs_reachable r c :
  In c (configs_from mount (fetchUser r)) -> reachable c.
Proof. apply configs_reachable_from. apply reach_start. Qed.

Ltac in_run := simpl; repeat (first [left; reflexivity | right]).

(** The five states of a run, spelled out. *)
Lemma reachable_cases c :
  reachable c ->
  exists r, c = (mount, fetchUser r)
         \/ c = (mount, after_await r)
         \/ (exists d, r = Fulfilled d /\
               (c = ({| user := Some d; loading := true; error := None |},
                     [SetError None; SetLoading false])
                \/ c = ({| user := Some d; loading := true; error := None |},
                        [SetLoading false])
                \/ c = ({| user := Some d; loading := false; error := None |}, [])))
         \/ (r = Rejected /\
               (c = ({| user := None; loading := true;
                        error := Some (str "Failed to fetch user data") |},
                     [SetLoading false])
                \/ c = ({| user := None; loading := false;
                           error := Some (str "Failed to fetch user data") |}, []))).
Proof.
  intros H. destruct (reachable_in_run c H) as [r Hin]. exists r.
  destruct r as [d | ]; simpl in Hin;
    repeat (destruct Hin as [<- | Hin]; [ eauto 10 | ]); destruct Hin.
Qed.

Lemma resolve_writes d s :
  resolve d s = {| user := Some d; loading := false; error := None |}.
Proof. reflexivity. Qed.

Lemma reject_writes s :
  reject s = {| user := user s; loading := false;
                error := Some (str "Failed to fetch user data") |}.
Proof. reflexivity. Qed.

(** C5, as stated, fails: the completion handlers carry no check of the
    status.  Run against a state that already shows one user, [resolve]
    replaces the user, and [reject] adds an error next to the user. *)
Lemma late_completion_overwrites :
  let s := {| user := Some leanne; loading := false; error := None |} in
  status_of s = Success
  /\ resolve ervin s <> s
  /\ reject s <> s
  /\ status_of (reject s) = Error.
Proof. repeat split; discriminate. Qed.

(** C5 (amended): the completion handlers write their result whatever
    the status is: [resolve d] leaves the user [d], no error and
    [loading] false; [reject] leaves the error message and [loading]
    false.  In a run of the page, which fetches once per mount, a setter
    call takes the state to status success or error only from status
    loading; and the run ends in success when the request is fulfilled
    and in error when it is rejected. *)
Theorem terminal_only_from_loading :
  (forall d s, resolve d s = {| user := Some d; loading := false; error := None |})
  /\ (forall s, reject s = {| user := user s; loading := false;
                              error := Some (str "Failed to fetch user data") |})
  /\ (forall c c', reachable c -> step c c' ->
        status_of (fst c') = Success \/ status_of (fst c') = Error ->
        status_of (fst c) = Loading)
  /\ (forall d, status_of (apply_all (fetchUser (Fulfilled d)) mount) = Success)
  /\ status_of (apply_all (fetchUser Rejected) mount) = Error.
Proof.
  split; [exact resolve_writes | ]. split; [exact reject_writes | ].
  split; [ | split; reflexivity].
  intros c c' Hreach Hstep Hterminal.
  destruct (reachable_cases c Hreach)
    as [r [-> | [-> | [(d & -> & [-> | [-> | ->]]) | (-> & [-> | ->])]]]];
    try reflexivity; inversion Hstep.
Qed.

Lemma terminal_only_from_loading_witness :
  reachable ({| user := Some leanne; loading := true; error := None |}, [SetLoading false])
  /\ step ({| user := Some leanne; loading := true; error := None |}, [SetLoading false])
          ({| user := Some leanne; loading := false; error := None |}, [])
  /\ status_of {| user := Some leanne; loading := false; error := None |} = Success
  /\ status_of {| user := Some leanne; loading := true; error := None |} = Loading.
Proof.
  assert (Hreach : reachable ({| user := Some leanne; loading := true; error := None |},
                              [SetLoading false])).
  { apply (configs_reachable (Fulfilled leanne)). in_run. }
  assert (Hstep : step ({| user := Some leanne; loading := true; error := None |},
                        [SetLoading false])
                       ({| user := Some leanne; loading := false; error := None |}, [])).
  { exact (step_update {| user := Some leanne; loading := true; error := None |}
                       (SetLoading false) []). }
  split; [exact Hreach | ]. split; [exact Hstep | ]. split; [reflexivity | ].
  exact (proj1 (proj2 (proj2 terminal_only_from_loading)) _ _ Hreach Hstep
           (or_introl eq_refl)).
Defined.

(** C6, as stated, fails: the state is created with [loading] true, so
    the first status is loading and not idle; and [loading] together
    with an error message is a state, which the run passes through
    between the two setter calls of a failed request. *)
Lemma mounts_loading_not_idle :
  status_of mount = Loading
  /\ status_of mount <> Idle
  /\ (let s := {| user := None; loading := true;
                  error := Some (str "Failed to fetch user data") |} in
      reachable (s, [SetLoading false])
      /\ loading s = true /\ populated (error s) = true).
Proof.
  split; [reflexivity | ]. split; [discriminate | ]. split; [ | split; reflexivity].
  apply (configs_reachable Rejected). in_run.
Qed.

(** C6 (amended): the profile state is created on mount with [loading]
    true, that is with status loading.  It is three separate cells, so
    loading together with an error message is representable.  In a run
    of the page that issues one fetch per mount, as its effect does, no
    state of the run has status idle; in every state of the run at most
    one of the user (payload) and the error message is populated; and
    once the fetch has settled exactly one of them is: the user exactly
    when the status is success, the error message exactly when the
    status is error. *)
Theorem profile_state_invariant :
  status_of mount = Loading
  /\ (forall c, reachable c ->
        status_of (fst c) <> Idle
        /\ (populated (user (fst c)) && populated (error (fst c)) = false)%bool
        /\ (settled c ->
            xorb (populated (user (fst c))) (populated (error (fst c))) = true
            /\ (populated (user (fst c)) = true <-> status_of (fst c) = Success)
            /\ (populated (error (fst c)) = true <-> status_of (fst c) = Error))).
Proof.
  split; [reflexivity | ]. intros c Hreach.
  destruct (reachable_cases c Hreach)
    as [r [-> | [-> | [(d & -> & [-> | [-> | ->]]) | (-> & [-> | ->])]]]];
    (split; [discriminate | ]); (split; [reflexivity | ]);
    unfold settled; simpl; intros Hs; try discriminate Hs;
    try (destruct r; discriminate Hs);
    repeat split; intros; try reflexivity; try discriminate.
Qed.

Lemma profile_state_invariant_witness :
  reachable ({| user := Some leanne; loading := false; error := None |}, [])
  /\ settled ({| user := Some leanne; loading := false; error := None |}, [])
  /\ status_of {| user := Some leanne; loading := false; error := None |} <> Idle
  /\ xorb (populated (Some leanne)) (populated (@None jsstring)) = true.
Proof.
  assert (Hreach : reachable ({| user := Some leanne; loading := false; error := None |}, [])).
  { apply (configs_reachable (Fulfilled leanne)). in_run. }
  split; [exact Hreach | ]. split; [reflexivity | ].
  destruct (proj2 profile_state_invariant _ Hreach) as (Hidle & _ & Hsettled).
  split; [exact Hidle | ].
  exact (proj1 (Hsettled eq_refl)).
Defined.

End UserProfileFacts.

(* ===================================================================== *)
(** ** Facts about [trim]                                                 *)
(* ===================================================================== *)

Module StringFacts.
Import JS.

Lemma trimStart_all_white s :
  trimStart s = [] <-> forallb is_white_space s = true.
Proof.
  induction s as [ | c s IH]; simpl; [tauto | ].
  destruct (is_white_space c); simpl; [exact IH | ].
  split; discriminate.
Qed.

Lemma trimStart_fixed c s :
  is_white_space c = false -> trimStart (c :: s) = c :: s.
Proof. intros H. simpl. now rewrite H. Qed.

(** What [trimStart] returns is empty or starts with a visible character. *)
Lemma trimStart_head s :
  trimStart s = [] \/ exists c r, trimStart s = c :: r /\ is_white_space c = false.
Proof.
  induction s as [ | c s IH]; simpl; [now left | ].
  destruct (is_white_space c) eqn:E; [exact IH | ].
  right. now exists c, s.
Qed.

Lemma trimStart_idempotent s : trimStart (trimStart s) = trimStart s.
Proof.
  destruct (trimStart_head s) as [-> | (c & r & -> & Hc)]; [reflexivity | ].
  now apply trimStart_fixed.
Qed.

Lemma trimStart_snoc s c :
  is_white_space c = false -> trimStart (s ++ [c]) = trimStart s ++ [c].
Proof.
  intros Hc. induction s as [ | d s IH]; simpl.
  - now rewrite Hc.
  - now destruct (is_white_space d).
Qed.

Lemma trimEnd_cons c s :
  is_white_space c = false -> trimEnd (c :: s) = c :: trimEnd s.
Proof.
  intros Hc. unfold trimEnd. simpl rev.
  rewrite trimStart_snoc by exact Hc.
  now rewrite List.rev_app_distr.
Qed.

Lemma trimEnd_idempotent s : trimEnd (trimEnd s) = trimEnd s.
Proof.
  unfold trimEnd. now rewrite List.rev_involutive, trimStart_idempotent.
Qed.

Lemma trim_idempotent s : trim (trim s) = trim s.
Proof.
  unfold trim.
  destruct (trimStart_head s) as [-> | (c & r & -> & Hc)]; [reflexivity | ].
  rewrite (trimEnd_cons c r Hc), (trimStart_fixed c _ Hc), <- (trimEnd_cons c r Hc).
  apply trimEnd_idempotent.
Qed.

(** [trim] gives the empty string exactly on strings of white space. *)
Lemma trim_empty_iff s : trim s = [] <-> forallb is_white_space s = true.
Proof.
  rewrite <- trimStart_all_white. unfold trim.
  destruct (trimStart_head s) as [-> | (c & r & -> & Hc)]; [tauto | ].
  rewrite (trimEnd_cons c r Hc). split; discriminate.
Qed.

Lemma is_empty_true (s : jsstring) : is_empty s = true <-> s = [].
Proof. destruct s; simpl; split; congruence. Qed.

Lemma is_empty_false (s : jsstring) : is_empty s = false <-> s <> [].
Proof. destruct s; simpl; split; congruence. Qed.

End StringFacts.

(* ===================================================================== *)
(** ** The enumeration order of an object's properties                    *)
(* ===================================================================== *)

Module EnumerationFacts.
Import JS.

Section Facts.
Context {V : Type}.
Implicit Types (o l : object V) (k : Z) (v : V) (p : Z * V).

Lemma insert_by_key_perm p l : Permutation (insert_by_key p l) (p :: l).
Proof.
  induction l as [ | q l IH]; simpl; [reflexivity | ].
  destruct (Z.leb (fst p) (fst q)); [reflexivity | ].
  rewrite IH. apply perm_swap.
Qed.

Lemma sort_by_key_perm l : Permutation (sort_by_key l) l.
Proof.
  induction l as [ | p l IH]; simpl; [reflexivity | ].
  rewrite insert_by_key_perm. now constructor.
Qed.

Lemma filter_split_perm (f : Z * V -> bool) l :
  Permutation (List.filter f l ++ List.filter (fun p => negb (f p)) l) l.
Proof.
  induction l as [ | p l IH]; simpl; [reflexivity | ].
  destruct (f p); simpl.
  - now constructor.
  - rewrite <- Permutation_middle. now constructor.
Qed.

(** Enumerating loses and repeats nothing. *)
Lemma own_properties_perm o : Permutation (own_properties o) o.
Proof.
  unfold own_properties. rewrite sort_by_key_perm. apply filter_split_perm.
Qed.

(** Without array-index keys the enumeration is the creation order. *)
Lemma own_properties_named o :
  forallb (fun p => negb (is_array_index (fst p))) o = true ->
  own_properties o = o.
Proof.
  intros H. unfold own_properties.
  assert (Hf : List.filter (fun p => negb (is_array_index (fst p))) o = o).
  { induction o as [ | p o IH]; simpl in *; [reflexivity | ].
    apply andb_prop in H as [Hp Ho]. rewrite Hp. now rewrite IH. }
  assert (Hi : List.filter (fun p => is_array_index (fst p)) o = []).
  { clear Hf. induction o as [ | p o IH]; simpl in *; [reflexivity | ].
    apply andb_prop in H as [Hp Ho]. apply negb_true_iff in Hp. rewrite Hp.
    now apply IH. }
  now rewrite Hi, Hf.
Qed.

Lemma keys_set_present o k v :
  has_own o k = true -> List.map fst (set o k v) = List.map fst o.
Proof.
  induction o as [ | [k' w] o IH]; simpl; [discriminate | ].
  destruct (Z.eqb k' k); simpl; intros H; [reflexivity | ].
  now rewrite IH.
Qed.

Lemma keys_set_absent o k v :
  has_own o k = false -> List.map fst (set o k v) = List.map fst o ++ [k].
Proof.
  intros H. rewrite ObjectFacts.set_fresh by exact H.
  now rewrite List.map_app.
Qed.

Lemma has_own_In o k : has_own o k = true <-> In k (List.map fst o).
Proof.
  induction o as [ | [k' w] o IH]; simpl; [split; [discriminate | tauto] | ].
  destruct (Z.eqb k' k) eqn:E.
  - apply Z.eqb_eq in E. tauto.
  - apply Z.eqb_neq in E. rewrite IH. tauto.
Qed.

Lemma get_own_set_ne o k k' v :
  k <> k' -> get_own (set o k v) k' = get_own o k'.
Proof.
  intros Hne. induction o as [ | [k0 w] o IH]; simpl.
  - apply Z.eqb_neq in Hne. now rewrite Hne.
  - destruct (Z.eqb k0 k) eqn:E; simpl.
    + apply Z.eqb_eq in E as ->. apply Z.eqb_neq in Hne. now rewrite Hne.
    + now rewrite IH.
Qed.

Lemma has_own_set o k v k' :
  has_own o k' = true -> has_own (set o k v) k' = true.
Proof.
  induction o as [ | [k0 w] o IH]; simpl; [discriminate | ].
  destruct (Z.eqb k0 k) eqn:E; simpl; destruct (Z.eqb k0 k'); auto.
Qed.

Lemma length_set o k v : (length o <= length (set o k v))%nat.
Proof.
  induction o as [ | [k0 w] o IH]; simpl; [lia | ].
  destruct (Z.eqb k0 k); simpl; lia.
Qed.

Lemma NoDup_keys_set o k v :
  List.NoDup (List.map fst o) -> List.NoDup (List.map fst (set o k v)).
Proof.
  intros H. destruct (has_own o k) eqn:E.
  - now rewrite keys_set_present.
  - rewrite keys_set_absent by exact E.
    apply List.NoDup_app; [exact H | repeat constructor; simpl; tauto | ].
    intros x Hx [<- | []]. apply has_own_In in Hx. congruence.
Qed.

Lemma set_set o k v v' : set (set o k v) k v' = set o k v'.
Proof.
  induction o as [ | [k0 w] o IH]; simpl.
  - now rewrite Z.eqb_refl.
  - destruct (Z.eqb k0 k) eqn:E; simpl; rewrite E; [reflexivity | now rewrite IH].
Qed.

Lemma set_comm o k1 v1 k2 v2 :
  k1 <> k2 -> has_own o k1 = true ->
  set (set o k1 v1) k2 v2 = set (set o k2 v2) k1 v1.
Proof.
  intros Hne. induction o as [ | [k0 w] o IH]; simpl; [discriminate | ].
  destruct (Z.eqb k0 k1) eqn:E1; destruct (Z.eqb k0 k2) eqn:E2; simpl;
    rewrite ?E1, ?E2; try reflexivity.
  - apply Z.eqb_eq in E1, E2. congruence.
  - intros H. now rewrite IH.
Qed.

(** The enumeration order depends on the keys alone. *)
Lemma insert_by_key_keys p p' l : forall l',
  fst p = fst p' -> List.map fst l = List.map fst l' ->
  List.map fst (insert_by_key p l) = List.map fst (insert_by_key p' l').
Proof.
  induction l as [ | q l IH]; intros [ | q' l'] Hp Hl; simpl in *;
    try discriminate.
  - now rewrite Hp.
  - injection Hl as Hq Hl. rewrite Hp, Hq.
    destruct (Z.leb (fst p') (fst q')); simpl.
    + now rewrite Hp, Hq, Hl.
    + rewrite Hq. f_equal. now apply IH.
Qed.

Lemma sort_by_key_keys l : forall l',
  List.map fst l = List.map fst l' ->
  List.map fst (sort_by_key l) = List.map fst (sort_by_key l').
Proof.
  induction l as [ | p l IH]; intros [ | p' l'] Hl; simpl in *;
    try discriminate; [reflexivity | ].
  injection Hl as Hp Hl. apply insert_by_key_keys; [exact Hp | now apply IH].
Qed.

Lemma filter_keys (g : Z -> bool) l : forall l',
  List.map fst l = List.map fst l' ->
  List.map fst (List.filter (fun p => g (fst p)) l)
  = List.map fst (List.filter (fun p => g (fst p)) l').
Proof.
  induction l as [ | p l IH]; intros [ | p' l'] Hl; simpl in *;
    try discriminate; [reflexivity | ].
  injection Hl as Hp Hl. rewrite Hp.
  destruct (g (fst p')); simpl; [rewrite Hp; f_equal | ]; now apply IH.
Qed.

Lemma keys_same_keys o o' :
  List.map fst o = List.map fst o' -> keys o = keys o'.
Proof.
  intros H. unfold keys, own_properties. rewrite !List.map_app. f_equal.
  - apply sort_by_key_keys. now apply (filter_keys is_array_index).
  - now apply (filter_keys (fun k => negb (is_array_index k))).
Qed.

Lemma Forall_set (P : Z * V -> Prop) o k v :
  List.Forall P o -> P (k, v) -> List.Forall P (set o k v).
Proof.
  intros Ho Hp. induction Ho as [ | [k0 w] o Hw Ho IH]; simpl.
  - now constructor.
  - destruct (Z.eqb k0 k) eqn:E.
    + apply Z.eqb_eq in E as ->. now constructor.
    + now constructor.
Qed.

End Facts.

End EnumerationFacts.

(* ===================================================================== *)
(** ** The todo list screen: invariants, rendering and composition        *)
(* ===================================================================== *)

Module TodoListLaws.
Import JS TodoList ObjectFacts TodoListFacts StringFacts EnumerationFacts.

(** *** Reading and writing through the cell *)

Lemma deref_assign k v s o :
  heap s !! todoList s = Some o -> deref (assign k v s) = set o k v.
Proof. intros H. exact (deref_Some (assign k v s) _ (heap_assign k v s o H)). Qed.

Lemma deref_assign_dangling k v s :
  heap s !! todoList s = None -> deref (assign k v s) = [] /\ deref s = [].
Proof.
  intros H. unfold deref. rewrite !lookup_total_alt. simpl.
  now rewrite lookup_alter_eq, H.
Qed.

(** Writing a key either updates the object behind the cell, or, were the
    cell to refer to nothing, leaves the empty listing empty. *)
Lemma deref_assign_cases k v s :
  deref (assign k v s) = set (deref s) k v
  \/ (deref (assign k v s) = [] /\ deref s = []).
Proof.
  destruct (heap s !! todoList s) as [o | ] eqn:Ho.
  - left. now rewrite (deref_assign k v s o Ho), (deref_Some s o Ho).
  - right. now apply deref_assign_dangling.
Qed.

Lemma read_assign_same k v s :
  read k (assign k v s) = v \/ (read k (assign k v s) = Undefined /\ deref s = []).
Proof.
  unfold read. destruct (deref_assign_cases k v s) as [-> | [-> Hs]].
  - left. now rewrite get_own_set_eq.
  - right. now split.
Qed.

Lemma read_assign_other k k' v s :
  k <> k' -> read k' (assign k v s) = read k' s.
Proof.
  intros Hne. unfold read. destruct (deref_assign_cases k v s) as [-> | [-> ->]].
  - now rewrite get_own_set_ne.
  - reflexivity.
Qed.

Lemma get_own_In (o : object value) k v : get_own o k = Some v -> In (k, v) o.
Proof.
  induction o as [ | [k0 w] o IH]; simpl; [discriminate | ].
  destruct (Z.eqb k0 k) eqn:E.
  - apply Z.eqb_eq in E as ->. intros [= ->]. now left.
  - intros H. right. now apply IH.
Qed.

Lemma get_own_has_own (o : object value) k v :
  get_own o k = Some v -> has_own o k = true.
Proof.
  induction o as [ | [k0 w] o IH]; simpl; [discriminate | ].
  destruct (Z.eqb k0 k); [reflexivity | exact IH].
Qed.

(** What each handler does to the object behind the cell. *)
Lemma addTodo_nonblank now s :
  is_empty (trim (newTodo s)) = false ->
  addTodo now s
  = setNewTodo [] (setTodos (todoList s)
                     (assign now (snd (new_entry (now, newTodo s))) s)).
Proof. intros H. unfold addTodo. now rewrite addTodo_run_nonblank. Qed.

Lemma addTodo_blank now s :
  is_empty (trim (newTodo s)) = true -> addTodo now s = s.
Proof. intros H. unfold addTodo. now rewrite addTodo_run_blank. Qed.

Lemma handle_deref a s :
  deref (handle a s) = deref s
  \/ exists k v, deref (handle a s) = deref (assign k v s).
Proof.
  destruct a as [t | now | k | k]; simpl.
  - now left.
  - destruct (is_empty (trim (newTodo s))) eqn:E.
    + left. now rewrite addTodo_blank.
    + right. rewrite addTodo_nonblank by exact E. now eexists _, _.
  - unfold toggleTodo. destruct (read k s) as [ | t]; [now left | ].
    right. now eexists _, _.
  - right. now eexists _, _.
Qed.

(** *** The shape of every reachable store *)

Lemma well_formed_mount : well_formed mount.
Proof.
  exists []. repeat split; constructor.
Qed.

Lemma well_formed_assign k v s :
  entry_ok (k, v) -> well_formed s -> well_formed (assign k v s).
Proof.
  intros Hv (o & Hh & Hl & Hnd & Hok).
  exists (set o k v). unfold assign. simpl. rewrite Hh, Hl.
  split; [exact (alter_singleton_eq (fun o0 => set o0 k v) 1%positive o) | ].
  split; [reflexivity | ].
  split; [now apply NoDup_keys_set | now apply Forall_set].
Qed.

Lemma well_formed_cells s l t :
  well_formed s -> l = todoList s ->
  well_formed {| heap := heap s; todoList := l; newTodo := t |}.
Proof. intros (o & Hh & Hl & H) ->. now exists o. Qed.

Lemma well_formed_deref s :
  well_formed s ->
  heap s !! todoList s = Some (deref s)
  /\ List.NoDup (List.map fst (deref s))
  /\ List.Forall entry_ok (deref s).
Proof.
  intros (o & Hh & Hl & Hnd & Hok).
  assert (Ho : heap s !! todoList s = Some o)
    by (rewrite Hh, Hl; apply lookup_singleton_eq).
  now rewrite (deref_Some s o Ho).
Qed.

Lemma read_entry_ok k s t :
  well_formed s -> read k s = Object t -> entry_ok (k, Object t).
Proof.
  intros Hwf Hread. destruct (well_formed_deref s Hwf) as (Ho & _ & Hok).
  destruct (read_Object k s t Hread) as (o & Ho' & Hk).
  rewrite Ho in Ho'. injection Ho' as <-.
  rewrite List.Forall_forall in Hok. apply Hok. now apply get_own_In.
Qed.

Lemma well_formed_handle a s : well_formed s -> well_formed (handle a s).
Proof.
  intros Hwf. destruct a as [t | now | k | k]; simpl.
  - now apply well_formed_cells.
  - destruct (is_empty (trim (newTodo s))) eqn:E.
    + now rewrite addTodo_blank.
    + rewrite addTodo_nonblank by exact E.
      apply well_formed_cells; [ | reflexivity].
      apply well_formed_cells; [ | reflexivity].
      apply well_formed_assign; [ | exact Hwf].
      split; [reflexivity | ]. split; [now apply is_empty_false | ].
      apply trim_idempotent.
  - unfold toggleTodo. destruct (read k s) as [ | t] eqn:Hread; [exact Hwf | ].
    apply well_formed_cells; [ | reflexivity].
    apply well_formed_assign; [ | exact Hwf].
    exact (read_entry_ok k s t Hwf Hread).
  - apply well_formed_cells; [ | reflexivity].
    apply well_formed_assign; [exact I | exact Hwf].
Qed.

Lemma well_formed_run acts : forall s, well_formed s -> well_formed (run acts s).
Proof.
  induction acts as [ | a acts IH]; intros s Hwf; [exact Hwf | ].
  apply (IH (handle a s)). now apply well_formed_handle.
Qed.

(** X1: whatever the user types, submits, toggles and deletes, and in
    whatever order, the store keeps its shape: the cell still refers to
    the store object made at mount; no key occurs twice in it; every
    record is stored under its own id; and every record's text is
    non-empty and free of white space at both ends. *)
Theorem reachable_store_shape (acts : list action) :
  well_formed (run acts mount).
Proof. apply well_formed_run, well_formed_mount. Qed.

(** *** Rendering the list *)

Lemma render_items_records ts :
  render_items (List.map Object ts) = Normal (List.map item_of ts).
Proof.
  induction ts as [ | t ts IH]; simpl; [reflexivity | ].
  now rewrite IH.
Qed.

Lemma render_items_undefined vs :
  In Undefined vs -> render_items vs = Throw TypeError.
Proof.
  induction vs as [ | v vs IH]; simpl; [tauto | ].
  destruct v as [ | t]; [reflexivity | ].
  intros [H | H]; [discriminate | ]. now rewrite IH.
Qed.

Lemma render_items_Normal vs items :
  render_items vs = Normal items ->
  exists ts, vs = List.map Object ts /\ items = List.map item_of ts.
Proof.
  revert items. induction vs as [ | v vs IH]; simpl; intros items H.
  - injection H as <-. now exists [].
  - destruct v as [ | t]; [discriminate | ].
    destruct (render_items vs) as [items' | e]; [ | discriminate].
    injection H as <-. destruct (IH items' eq_refl) as (ts & -> & ->).
    now exists (t :: ts).
Qed.

Lemma render_items_Throw vs e :
  render_items vs = Throw e -> In Undefined vs.
Proof.
  induction vs as [ | v vs IH]; simpl; [discriminate | ].
  destruct v as [ | t]; [now left | ].
  destruct (render_items vs) as [items' | e']; [discriminate | ].
  intros H. right. now apply IH.
Qed.

(** X2: rendering the list throws a TypeError exactly when some listed
    value is [undefined]; otherwise it returns one row per listed record,
    in listing order, whose key is the record's id, whose checkbox and
    strike-through follow [completed] and whose label is the text. *)
Theorem render_list_outcome (s : State) :
  (render_list s = Throw TypeError <-> In Undefined (listed s))
  /\ (forall items,
        render_list s = Normal items <->
        exists ts, listed s = List.map Object ts /\ items = List.map item_of ts).
Proof.
  unfold render_list. split; [split | intros items; split].
  - apply render_items_Throw.
  - apply render_items_undefined.
  - apply render_items_Normal.
  - intros (ts & -> & ->). apply render_items_records.
Qed.

Lemma ids_of_listed (ps : list (Z * value)) : forall ts,
  List.Forall entry_ok ps ->
  List.map snd ps = List.map Object ts ->
  List.map id ts = List.map fst ps.
Proof.
  induction ps as [ | [k v] ps IH]; intros [ | t ts] Hok Heq;
    try discriminate; [reflexivity | ].
  simpl in Heq. injection Heq as -> Heq.
  apply List.Forall_cons_iff in Hok as [[Hid _] Hok]. simpl in Hid.
  simpl. now rewrite Hid, (IH ts Hok Heq).
Qed.

Lemma keys_of_rows ts : List.map key (List.map item_of ts) = List.map id ts.
Proof. now rewrite List.map_map. Qed.

Lemma well_formed_render_keys s items :
  well_formed s -> render_list s = Normal items ->
  List.map key items = keys (deref s).
Proof.
  intros Hwf Hr. destruct (well_formed_deref s Hwf) as (_ & _ & Hok).
  destruct (render_items_Normal _ _ Hr) as (ts & Hts & ->).
  rewrite keys_of_rows. unfold keys. apply ids_of_listed; [ | exact Hts].
  rewrite List.Forall_forall in *. intros p Hp. apply Hok.
  exact (Permutation_in p (own_properties_perm (deref s)) Hp).
Qed.

Lemma well_formed_keys_NoDup s :
  well_formed s -> List.NoDup (keys (deref s)).
Proof.
  intros Hwf. destruct (well_formed_deref s Hwf) as (_ & Hnd & _).
  unfold keys.
  apply (Permutation.Permutation_NoDup
           (Permutation_sym (Permutation.Permutation_map fst
                               (own_properties_perm (deref s))))).
  exact Hnd.
Qed.

Lemma render_list_outcome_witness :
  In Undefined (listed (deleteTodo a_clock buy_milk))
  /\ render_list (deleteTodo a_clock buy_milk) = Throw TypeError.
Proof.
  assert (H : In Undefined (listed (deleteTodo a_clock buy_milk))) by now left.
  split; [exact H | ].
  exact (proj2 (proj1 (render_list_outcome (deleteTodo a_clock buy_milk))) H).
Defined.

(** X3: in every state the screen can reach, a render that succeeds gives
    rows with pairwise distinct keys, and the key of a row is the key
    under which its record is stored, so the checkbox and the Delete
    button of a row act on that row's record. *)
Theorem rendered_keys_distinct (acts : list action) (items : list Item) :
  render_list (run acts mount) = Normal items ->
  List.NoDup (List.map key items)
  /\ List.map key items = keys (deref (run acts mount)).
Proof.
  intros Hr.
  pose proof (well_formed_run acts mount well_formed_mount) as Hwf.
  rewrite (well_formed_render_keys _ _ Hwf Hr).
  split; [now apply well_formed_keys_NoDup | reflexivity].
Qed.

Lemma rendered_keys_distinct_witness :
  render_list (run [Typing (str "Buy milk"); Submit a_clock;
                    Typing (str "Feed cat"); Submit (a_clock + 1);
                    Toggle a_clock] mount)
  = Normal [ {| key := a_clock; checked := true; label := str "Buy milk";
                line_through := true |};
             {| key := a_clock + 1; checked := false; label := str "Feed cat";
                line_through := false |} ]
  /\ List.NoDup [a_clock; a_clock + 1].
Proof.
  split; [reflexivity | ].
  exact (proj1 (rendered_keys_distinct
                  [Typing (str "Buy milk"); Submit a_clock;
                   Typing (str "Feed cat"); Submit (a_clock + 1);
                   Toggle a_clock] _ eq_refl)).
Defined.

(** X11: once a row has been deleted the list cannot be rendered: from
    every reachable state, and for every id, present or not, the render
    after [deleteTodo] throws a TypeError. *)
Theorem render_after_delete_throws (acts : list action) (k : Z) :
  render_list (deleteTodo k (run acts mount)) = Throw TypeError.
Proof.
  pose proof (well_formed_run acts mount well_formed_mount) as Hwf.
  destruct (well_formed_deref _ Hwf) as (Ho & _ & _).
  apply render_items_undefined. unfold listed.
  change (deref (deleteTodo k (run acts mount)))
    with (deref (assign k Undefined (run acts mount))).
  rewrite (deref_assign _ _ _ _ Ho). apply In_values_set.
Qed.

(** *** Nothing is ever removed *)

Lemma size_length s : size s = length (deref s).
Proof. unfold size, listed. apply length_values. Qed.

Lemma handle_keeps_keys a s :
  (size s <= size (handle a s))%nat
  /\ (forall k, has_own (deref s) k = true -> has_own (deref (handle a s)) k = true).
Proof.
  rewrite !size_length.
  destruct (handle_deref a s) as [-> | (k & v & ->)]; [split; [lia | auto] | ].
  destruct (deref_assign_cases k v s) as [-> | [-> ->]].
  - split; [apply length_set | intros k'; apply has_own_set].
  - split; [simpl; lia | auto].
Qed.

Lemma run_keeps_keys acts : forall s,
  (size s <= size (run acts s))%nat
  /\ (forall k, has_own (deref s) k = true -> has_own (deref (run acts s)) k = true).
Proof.
  induction acts as [ | a acts IH]; intros s.
  - split; [apply Nat.le_refl | auto].
  - destruct (handle_keeps_keys a s) as [Hs Hk].
    destruct (IH (handle a s)) as [Hs' Hk'].
    change (run (a :: acts) s) with (run acts (handle a s)).
    split; [exact (Nat.le_trans _ _ _ Hs Hs') | intros k H; apply Hk', Hk, H].
Qed.

(** X4: no handler ever removes a key.  Along every sequence of actions,
    from every state, the number of listed entries never goes down and a
    key that is in the store stays in it; so once the list has an entry,
    the line "No todos yet. Add one!" is never shown again. *)
Theorem entries_never_removed (acts : list action) (s : State) :
  (size s <= size (run acts s))%nat
  /\ (forall k, has_own (deref s) k = true -> has_own (deref (run acts s)) k = true)
  /\ (shows_no_todos_yet s = false -> shows_no_todos_yet (run acts s) = false).
Proof.
  destruct (run_keeps_keys acts s) as [Hs Hk].
  split; [exact Hs | ]. split; [exact Hk | ].
  unfold shows_no_todos_yet. rewrite !Nat.eqb_neq.
  intros Hpos Hzero. rewrite Hzero in Hs. apply Hpos. now apply Nat.le_0_r.
Qed.

Lemma entries_never_removed_witness :
  has_own (deref buy_milk) a_clock = true
  /\ shows_no_todos_yet buy_milk = false
  /\ has_own (deref (run [Toggle a_clock; Delete a_clock] buy_milk)) a_clock = true
  /\ shows_no_todos_yet (run [Toggle a_clock; Delete a_clock] buy_milk) = false.
Proof.
  split; [reflexivity | ]. split; [reflexivity | ].
  destruct (entries_never_removed [Toggle a_clock; Delete a_clock] buy_milk)
    as (_ & Hk & Hshow).
  split; [exact (Hk a_clock eq_refl) | exact (Hshow eq_refl)].
Defined.

(** *** Submitting *)

Lemma trim_nil : trim [] = [].
Proof. reflexivity. Qed.

(** X5: submitting the form twice without typing in between adds at most
    one record, whatever the two clock readings are: the first submit
    either does nothing or empties the input, and the second then finds
    nothing to add. *)
Theorem double_submit_adds_once (now now' : Z) (s : State) :
  addTodo now' (addTodo now s) = addTodo now s.
Proof.
  destruct (is_empty (trim (newTodo s))) eqn:E.
  - rewrite (addTodo_blank now s E). now apply addTodo_blank.
  - rewrite (addTodo_nonblank now s E). now apply addTodo_blank.
Qed.

Lemma not_blank_trim (t : jsstring) :
  forallb is_white_space t = false -> is_empty (trim t) = false.
Proof.
  intros H. destruct (is_empty (trim t)) eqn:E; [ | reflexivity].
  apply is_empty_true, trim_empty_iff in E. congruence.
Qed.

(** X6: a submit leaves the whole state untouched exactly when the input
    consists of white space only (the empty input included).  For any
    other input it writes, into the object the cell refers to, the
    property [now -> {id: now, text: input trimmed, completed: false}],
    empties the input and keeps the cell; when the cell refers to an
    object, the key [now] then reads as that record and the record is
    among the listed values. *)
Theorem submit_ignored_iff_blank (now : Z) (s : State) :
  (addTodo now s = s <-> forallb is_white_space (newTodo s) = true)
  /\ (forallb is_white_space (newTodo s) = false ->
      let r := Object {| id := now; text := trim (newTodo s); completed := false |} in
      addTodo now s
      = {| heap := alter (fun o => set o now r) (todoList s) (heap s);
           todoList := todoList s;
           newTodo := [] |}
      /\ (forall o, heap s !! todoList s = Some o ->
            read now (addTodo now s) = r
            /\ In r (listed (addTodo now s))
            /\ In (now, r) (deref (addTodo now s)))).
Proof.
  split.
  - rewrite <- trim_empty_iff. split.
    + intros H. destruct (is_empty (trim (newTodo s))) eqn:E.
      * now apply is_empty_true.
      * rewrite (addTodo_nonblank now s E) in H.
        apply (f_equal newTodo) in H. simpl in H. rewrite <- H. reflexivity.
    + intros H. apply addTodo_blank. now apply is_empty_true.
  - intros Hblank r.
    rewrite (addTodo_nonblank now s (not_blank_trim _ Hblank)).
    split; [reflexivity | ]. intros o Ho.
    change (read now (assign now r s) = r
            /\ In r (values (deref (assign now r s)))
            /\ In (now, r) (deref (assign now r s))).
    rewrite (deref_assign now r s o Ho).
    split; [exact (read_assign_eq now r s o Ho) | ].
    split; [apply In_values_set | apply In_set].
Qed.

Lemma submit_ignored_iff_blank_witness :
  (forallb is_white_space (newTodo (onChange (str "   ") buy_milk)) = true
   /\ addTodo (a_clock + 1) (onChange (str "   ") buy_milk)
      = onChange (str "   ") buy_milk)
  /\ (forallb is_white_space (newTodo (onChange (str " Feed cat") buy_milk)) = false
      /\ newTodo (addTodo (a_clock + 1) (onChange (str " Feed cat") buy_milk)) = []
      /\ In (Object {| id := a_clock + 1; text := str "Feed cat"; completed := false |})
            (listed (addTodo (a_clock + 1) (onChange (str " Feed cat") buy_milk)))).
Proof.
  split.
  - split; [reflexivity | ].
    exact (proj2 (proj1 (submit_ignored_iff_blank (a_clock + 1)
                           (onChange (str "   ") buy_milk))) eq_refl).
  - split; [reflexivity | ].
    destruct (proj2 (submit_ignored_iff_blank (a_clock + 1)
                       (onChange (str " Feed cat") buy_milk)) eq_refl)
      as [Hstate Hstore].
    split; [now rewrite Hstate | ].
    exact (proj1 (proj2 (Hstore _ eq_refl))).
Defined.

(** X7: creating then looking up.  On a store whose cell refers to an
    object, creating with non-blank text [t] at clock reading [now] makes
    the key [now] read as the record [{id: now, text: t trimmed,
    completed: false}], also when the key was there before (its old
    value, record or [undefined], is replaced), and leaves what every
    other key reads as it was. *)
Theorem create_then_read (now : Z) (t : jsstring) (s : State) (o : object value) :
  heap s !! todoList s = Some o ->
  is_empty (trim t) = false ->
  read now (create now t s)
  = Object {| id := now; text := trim t; completed := false |}
  /\ (forall k, k <> now -> read k (create now t s) = read k s).
Proof.
  intros Ho Ht. unfold create.
  rewrite (addTodo_nonblank now (onChange t s) Ht).
  split.
  - change (read now (assign now (snd (new_entry (now, t))) (onChange t s))
            = snd (new_entry (now, t))).
    exact (read_assign_eq now _ (onChange t s) o Ho).
  - intros k Hk.
    change (read k (assign now (snd (new_entry (now, t))) (onChange t s))
            = read k s).
    rewrite read_assign_other by congruence. reflexivity.
Qed.

Lemma create_then_read_witness :
  heap buy_milk !! todoList buy_milk
  = Some [(a_clock, Object {| id := a_clock; text := str "Buy milk"; completed := false |})]
  /\ is_empty (trim (str " Feed cat ")) = false
  /\ read a_clock (create a_clock (str " Feed cat ") buy_milk)
     = Object {| id := a_clock; text := str "Feed cat"; completed := false |}.
Proof.
  split; [reflexivity | ]. split; [reflexivity | ].
  exact (proj1 (create_then_read a_clock (str " Feed cat ") buy_milk _ eq_refl eq_refl)).
Defined.

(** *** Toggling and deleting *)

Lemma deref_keys_assign_present k v s :
  has_own (deref s) k = true ->
  List.map fst (deref (assign k v s)) = List.map fst (deref s).
Proof.
  intros H. destruct (deref_assign_cases k v s) as [-> | [_ Hs]].
  - now apply keys_set_present.
  - rewrite Hs in H. discriminate.
Qed.

Lemma read_has_own k s t : read k s = Object t -> has_own (deref s) k = true.
Proof.
  intros H. destruct (read_Object k s t H) as (o & Ho & Hk).
  rewrite (deref_Some s o Ho). exact (get_own_has_own o k _ Hk).
Qed.

(** X8: toggling an id that is bound to a record returns normally and
    changes one flag only: that key now reads as the same record with
    [completed] negated, every other key reads as before, the rows keep
    their order and number, and the input text and the cell are
    untouched. *)
Theorem toggle_changes_one_flag (k : Z) (s : State) (t : Todo) :
  read k s = Object t ->
  exists s', toggleTodo k s = Normal s'
    /\ read k s' = Object (toggled t)
    /\ (forall k', k' <> k -> read k' s' = read k' s)
    /\ keys (deref s') = keys (deref s)
    /\ size s' = size s
    /\ newTodo s' = newTodo s
    /\ todoList s' = todoList s.
Proof.
  intros Hread. destruct (read_Object k s t Hread) as (o & Ho & Hk).
  eexists. split; [exact (toggleTodo_present k s t Hread) | ].
  split.
  { change (read k (assign k (Object (toggled t)) s) = Object (toggled t)).
    exact (read_assign_eq k _ s o Ho). }
  split.
  { intros k' Hne.
    change (read k' (assign k (Object (toggled t)) s) = read k' s).
    apply read_assign_other. congruence. }
  assert (Hkeys : List.map fst (deref (assign k (Object (toggled t)) s))
                  = List.map fst (deref s))
    by (apply deref_keys_assign_present; exact (read_has_own k s t Hread)).
  split; [exact (keys_same_keys _ _ Hkeys) | ].
  split; [ | split; reflexivity].
  rewrite !size_length.
  change (length (deref (assign k (Object (toggled t)) s)) = length (deref s)).
  rewrite <- (List.length_map fst), Hkeys. apply List.length_map.
Qed.

Lemma toggle_changes_one_flag_witness :
  read a_clock buy_milk
  = Object {| id := a_clock; text := str "Buy milk"; completed := false |}
  /\ exists s', toggleTodo a_clock buy_milk = Normal s'
       /\ read a_clock s'
          = Object {| id := a_clock; text := str "Buy milk"; completed := true |}.
Proof.
  split; [reflexivity | ].
  destruct (toggle_changes_one_flag a_clock buy_milk _ eq_refl)
    as (s' & Ht & Hr & _).
  exists s'. split; [exact Ht | exact Hr].
Defined.

Lemma deleteTodo_unfold k s :
  deleteTodo k s
  = {| heap := alter (fun o => set o k Undefined) (todoList s) (heap s);
       todoList := todoList s; newTodo := newTodo s |}.
Proof. reflexivity. Qed.

(** X9: deleting an id, present or not, makes that key read [undefined]
    and leaves what every other key reads as it was; deleting it again
    changes nothing more; deleting after a toggle of the same id gives
    the same state as deleting straight away; and when the key was in the
    store the rows keep their order and number, the [undefined] entry
    sitting where the record was. *)
Theorem delete_blanks_one_key (k : Z) (s : State) :
  read k (deleteTodo k s) = Undefined
  /\ (forall k', k' <> k -> read k' (deleteTodo k s) = read k' s)
  /\ deleteTodo k (deleteTodo k s) = deleteTodo k s
  /\ (forall s', toggleTodo k s = Normal s' -> deleteTodo k s' = deleteTodo k s)
  /\ (has_own (deref s) k = true ->
      keys (deref (deleteTodo k s)) = keys (deref s)
      /\ size (deleteTodo k s) = size s).
Proof.
  split.
  { change (read k (assign k Undefined s) = Undefined).
    destruct (read_assign_same k Undefined s) as [H | [H _]]; exact H. }
  split.
  { intros k' Hne. change (read k' (assign k Undefined s) = read k' s).
    apply read_assign_other. congruence. }
  split.
  { rewrite !deleteTodo_unfold. simpl. f_equal.
    rewrite alter_alter_eq. apply alter_ext. intros o _. apply set_set. }
  split.
  { intros s' Ht. unfold toggleTodo in Ht.
    destruct (read k s) as [ | t]; [discriminate | ]. injection Ht as <-.
    rewrite !deleteTodo_unfold. simpl. f_equal.
    rewrite alter_alter_eq. apply alter_ext. intros o _. apply set_set. }
  intros Hk.
  assert (Hkeys : List.map fst (deref (assign k Undefined s)) = List.map fst (deref s))
    by (now apply deref_keys_assign_present).
  split; [exact (keys_same_keys _ _ Hkeys) | ].
  rewrite !size_length.
  change (length (deref (assign k Undefined s)) = length (deref s)).
  rewrite <- (List.length_map fst), Hkeys. apply List.length_map.
Qed.

Lemma delete_blanks_one_key_witness :
  has_own (deref buy_milk) a_clock = true
  /\ keys (deref (deleteTodo a_clock buy_milk)) = keys (deref buy_milk)
  /\ size (deleteTodo a_clock buy_milk) = size buy_milk.
Proof.
  split; [reflexivity | ].
  exact (proj2 (proj2 (proj2 (proj2 (delete_blanks_one_key a_clock buy_milk)))) eq_refl).
Defined.

Lemma handle_Toggle k s :
  handle (Toggle k) s
  = match read k s with
    | Undefined => s
    | Object t => setTodos (todoList s) (assign k (Object (toggled t)) s)
    end.
Proof. simpl. unfold toggleTodo. now destruct (read k s). Qed.

Lemma read_toggle_other k k' s :
  k <> k' -> read k' (handle (Toggle k) s) = read k' s.
Proof.
  intros Hne. rewrite handle_Toggle. destruct (read k s) as [ | t]; [reflexivity | ].
  change (read k' (assign k (Object (toggled t)) s) = read k' s).
  now apply read_assign_other.
Qed.

Lemma assign_assign_comm k1 v1 k2 v2 s :
  k1 <> k2 -> has_own (deref s) k1 = true ->
  heap (assign k2 v2 (assign k1 v1 s)) = heap (assign k1 v1 (assign k2 v2 s)).
Proof.
  intros Hne Hk. simpl. rewrite !alter_alter_eq. apply alter_ext.
  intros o Ho. simpl. rewrite (deref_Some s o Ho) in Hk. now apply set_comm.
Qed.

Lemma toggle_toggle_comm k1 k2 s :
  handle (Toggle k1) (handle (Toggle k2) s)
  = handle (Toggle k2) (handle (Toggle k1) s).
Proof.
  destruct (Z.eq_dec k1 k2) as [-> | Hne]; [reflexivity | ].
  rewrite (handle_Toggle k1 (handle (Toggle k2) s)).
  rewrite (handle_Toggle k2 (handle (Toggle k1) s)).
  rewrite (read_toggle_other k2 k1 s) by congruence.
  rewrite (read_toggle_other k1 k2 s) by congruence.
  rewrite !handle_Toggle.
  destruct (read k1 s) as [ | t1] eqn:H1; destruct (read k2 s) as [ | t2] eqn:H2;
    try reflexivity.
  unfold setTodos. simpl todoList. simpl newTodo. f_equal.
  symmetry. apply (assign_assign_comm k1 _ k2 _ s Hne).
  exact (read_has_own k1 s t1 H1).
Qed.

Lemma toggle_delete_comm k1 k2 s :
  k1 <> k2 ->
  handle (Toggle k1) (handle (Delete k2) s)
  = handle (Delete k2) (handle (Toggle k1) s).
Proof.
  intros Hne. rewrite !handle_Toggle.
  assert (Hr : read k1 (handle (Delete k2) s) = read k1 s).
  { change (read k1 (assign k2 Undefined s) = read k1 s).
    apply read_assign_other. congruence. }
  rewrite Hr. destruct (read k1 s) as [ | t1] eqn:H1; [reflexivity | ].
  simpl handle. unfold deleteTodo, setTodos. simpl todoList. simpl newTodo. f_equal.
  symmetry. apply (assign_assign_comm k1 _ k2 _ s Hne).
  exact (read_has_own k1 s t1 H1).
Qed.

(** X14: clicks on different rows do not interfere.  Two checkbox clicks
    give the same state in either order, for any two ids, in the store or
    not; and a checkbox click on one id and a Delete click on another id
    give the same state in either order. *)
Theorem clicks_on_different_rows_commute (k1 k2 : Z) (s : State) :
  handle (Toggle k1) (handle (Toggle k2) s)
  = handle (Toggle k2) (handle (Toggle k1) s)
  /\ (k1 <> k2 ->
      handle (Toggle k1) (handle (Delete k2) s)
      = handle (Delete k2) (handle (Toggle k1) s)).
Proof. split; [apply toggle_toggle_comm | apply toggle_delete_comm]. Qed.

Lemma clicks_on_different_rows_commute_witness :
  a_clock <> a_clock + 1
  /\ handle (Toggle a_clock) (handle (Delete (a_clock + 1)) buy_milk)
     = handle (Delete (a_clock + 1)) (handle (Toggle a_clock) buy_milk).
Proof.
  assert (H : a_clock <> a_clock + 1) by (unfold a_clock; lia).
  split; [exact H | ].
  exact (proj2 (clicks_on_different_rows_commute a_clock (a_clock + 1) buy_milk) H).
Defined.

(** X15: a creation whose clock reading is already a key of the store
    replaces what that key held, a record or [undefined], by the new
    record in place: the rows keep their order and their number, and the
    input is emptied. *)
Theorem create_on_existing_key_replaces (now : Z) (t : jsstring) (s : State) :
  is_empty (trim t) = false ->
  has_own (deref s) now = true ->
  read now (create now t s)
  = Object {| id := now; text := trim t; completed := false |}
  /\ keys (deref (create now t s)) = keys (deref s)
  /\ size (create now t s) = size s
  /\ newTodo (create now t s) = [].
Proof.
  intros Ht Hk. unfold create.
  rewrite (addTodo_nonblank now (onChange t s) Ht).
  assert (Hkeys : List.map fst (deref (assign now (snd (new_entry (now, t))) s))
                  = List.map fst (deref s))
    by (now apply deref_keys_assign_present).
  split.
  { change (read now (assign now (snd (new_entry (now, t))) s)
            = snd (new_entry (now, t))).
    destruct (read_assign_same now (snd (new_entry (now, t))) s) as [H | [_ H]];
      [exact H | ].
    rewrite H in Hk. discriminate. }
  split; [exact (keys_same_keys _ _ Hkeys) | ].
  split; [ | reflexivity].
  rewrite !size_length.
  change (length (deref (assign now (snd (new_entry (now, t))) s)) = length (deref s)).
  rewrite <- (List.length_map fst), Hkeys. apply List.length_map.
Qed.

Lemma create_on_existing_key_replaces_witness :
  is_empty (trim (str "Feed cat")) = false
  /\ has_own (deref (deleteTodo a_clock buy_milk)) a_clock = true
  /\ read a_clock (create a_clock (str "Feed cat") (deleteTodo a_clock buy_milk))
     = Object {| id := a_clock; text := str "Feed cat"; completed := false |}
  /\ size (create a_clock (str "Feed cat") (deleteTodo a_clock buy_milk)) = 1%nat.
Proof.
  split; [reflexivity | ]. split; [reflexivity | ].
  destruct (create_on_existing_key_replaces a_clock (str "Feed cat")
              (deleteTodo a_clock buy_milk) eq_refl eq_refl) as (Hr & _ & Hs & _).
  split; [exact Hr | exact Hs].
Defined.

(** *** From creations to rows *)

Lemma new_entries_named (cs : list (Z * jsstring)) :
  forallb (fun c => negb (is_array_index (fst c))) cs = true ->
  forallb (fun p : Z * value => negb (is_array_index (fst p)))
          (List.map new_entry (effective cs)) = true.
Proof.
  unfold effective. induction cs as [ | c cs IH]; simpl; [reflexivity | ].
  intros H. apply andb_prop in H as [Hc Hcs].
  destruct (negb (is_empty (trim (snd c)))); simpl; [rewrite Hc | ]; now apply IH.
Qed.

(** X10: starting from the empty store, after any sequence of creations
    whose clock readings are pairwise distinct and not array indices (as
    every reading from 2^32 - 1 on is), the list renders without
    throwing, one row per creation with non-blank text, in the order of
    creation, each row unchecked, keyed by its clock reading and
    labelled with the trimmed text. *)
Theorem created_rows_in_order (cs : list (Z * jsstring)) :
  List.NoDup (effective_clocks cs) ->
  forallb (fun c => negb (is_array_index (fst c))) cs = true ->
  render_list (snd (create_all cs mount))
  = Normal (List.map (fun c => {| key := fst c; checked := false;
                                  label := trim (snd c); line_through := false |})
                     (effective cs)).
Proof.
  intros Hnd Hnamed.
  pose proof (create_all_store cs mount [] eq_refl (fun k _ => eq_refl) Hnd) as Hs.
  simpl in Hs. unfold render_list, listed, values.
  rewrite (deref_Some _ _ Hs).
  rewrite (own_properties_named _ (new_entries_named cs Hnamed)).
  rewrite List.map_map.
  rewrite <- (List.map_map (fun c => {| id := fst c; text := trim (snd c);
                                        completed := false |}) Object).
  rewrite render_items_records. now rewrite List.map_map.
Qed.

Lemma created_rows_in_order_witness :
  List.NoDup (effective_clocks [(a_clock + 5, str "Buy milk"); (a_clock + 6, str "  ");
                                (a_clock, str " Feed cat")])
  /\ render_list (snd (create_all [(a_clock + 5, str "Buy milk"); (a_clock + 6, str "  ");
                                   (a_clock, str " Feed cat")] mount))
     = Normal [ {| key := a_clock + 5; checked := false; label := str "Buy milk";
                   line_through := false |};
                {| key := a_clock; checked := false; label := str "Feed cat";
                   line_through := false |} ].
Proof.
  assert (H : List.NoDup (effective_clocks
                [(a_clock + 5, str "Buy milk"); (a_clock + 6, str "  ");
                 (a_clock, str " Feed cat")])).
  { repeat constructor; simpl; intuition discriminate. }
  split; [exact H | ].
  exact (created_rows_in_order _ H eq_refl).
Defined.

End TodoListLaws.

(* ===================================================================== *)
(** ** The user profile page: what is on screen during a run              *)
(* ===================================================================== *)

Module UserProfileViews.
Import JS UserProfile UserProfileFacts.

(** X12: in a run of the page that issues one fetch per mount, as its
    effect does, and whose request either returns a user record, as the
    data source promises, or fails: while the run still has setter calls
    to make, the page shows the spinner, never a half-written profile or
    an error; when the run has settled it shows the profile of exactly
    the record the request returned, or, for a failed request, the fixed
    message "Failed to fetch user data"; the profile page with an empty
    body is never shown. *)
Theorem spinner_until_settled :
  (forall c, reachable c -> snd c <> [] -> render (fst c) = Spinner)
  /\ (forall c, reachable c -> settled c ->
        (exists d, render (fst c) = ProfileView (Some d))
        \/ render (fst c) = ErrorView (str "Failed to fetch user data"))
  /\ (forall d, render (apply_all (fetchUser (Fulfilled d)) mount) = ProfileView (Some d))
  /\ render (apply_all (fetchUser Rejected) mount)
     = ErrorView (str "Failed to fetch user data")
  /\ (forall c, reachable c -> render (fst c) <> ProfileView None).
Proof.
  split; [ | split; [ | split; [reflexivity | split; [reflexivity | ]]]].
  - intros c Hreach Hrest.
    destruct (reachable_cases c Hreach)
      as [r [-> | [-> | [(d & -> & [-> | [-> | ->]]) | (-> & [-> | ->])]]]];
      try reflexivity; now contradiction Hrest.
  - intros c Hreach Hsettled. unfold settled in Hsettled.
    destruct (reachable_cases c Hreach)
      as [r [-> | [-> | [(d & -> & [-> | [-> | ->]]) | (-> & [-> | ->])]]]];
      simpl in Hsettled; try discriminate Hsettled;
      try (destruct r; discriminate Hsettled).
    + left. now exists d.
    + now right.
  - intros c Hreach.
    destruct (reachable_cases c Hreach)
      as [r [-> | [-> | [(d & -> & [-> | [-> | ->]]) | (-> & [-> | ->])]]]];
      discriminate.
Qed.

Lemma spinner_until_settled_witness :
  reachable ({| user := None; loading := true;
                error := Some (str "Failed to fetch user data") |}, [SetLoading false])
  /\ render {| user := None; loading := true;
               error := Some (str "Failed to fetch user data") |} = Spinner.
Proof.
  assert (Hreach : reachable ({| user := None; loading := true;
                                 error := Some (str "Failed to fetch user data") |},
                              [SetLoading false])).
  { apply (configs_reachable Rejected). in_run. }
  split; [exact Hreach | ].
  apply (proj1 spinner_until_settled _ Hreach). discriminate.
Defined.

End UserProfileViews.

(* ===================================================================== *)
(** ** The counter screen: what the step input accepts                    *)
(* ===================================================================== *)

Module CounterInput.
Import JS Counter.

(** X13: the step input stores a number as it is exactly when the number
    is positive, be it tiny or +Infinity; for zero of either sign (an
    emptied input gives 0), for every negative number, for -Infinity and
    for NaN it stores 1.  The stored step passes the same check again
    unchanged, and the count is not touched. *)
Theorem step_input_accepts_positive (v : number) (s : State) :
  match v with
  | S754_finite false _ _ | S754_infinity false => step (handleStepChange v s) = v
  | _ => step (handleStepChange v s) = of_Z 1
  end
  /\ handleStepChange (step (handleStepChange v s)) s = handleStepChange v s
  /\ count (handleStepChange v s) = count s.
Proof.
  destruct v as [[ | ] | [ | ] | | [ | ] m e]; repeat split.
Qed.

End CounterInput.
